(** * throttle: a per-client request throttle (Go), embedded in Rocq

    The repository holds two revisions of [throttle.go]:
    - the HTTP revision, where [Wait] takes and returns an [http.Request],
      which derives the client key with [ip4] and reports the package-level
      [timeout] in its error;
    - the client-string revision, [Wait(client string) error], which reports
      [t.requestRate].
    Both share the same body otherwise.  The embedding below is one machine
    parameterised by the revision.

    Go's goroutines, unbuffered channels, [sync.Mutex] and [time.Sleep] are
    given a discrete-event semantics: every statement is instantaneous, and
    the clock advances only when every goroutine is blocked (sleeping, waiting
    for the mutex, or waiting on a channel).  This is the reading the
    repository's test table uses for its expected admission times. *)

From Stdlib Require Import ZArith Lia List String Ascii Bool.
From stdpp Require Import base option list gmap strings.
Import ListNotations.
Open Scope Z_scope.

(** ** Go's [strings] functions used by [ip4] *)

Module strings.

(** [strings.Index(s, substr)]: index of the first instance of [substr] in
    [s], or [-1]. *)
Fixpoint Index (s substr : string) : Z :=
  if String.prefix substr s then 0
  else match s with
       | EmptyString => -1
       | String _ s' => let m := Index s' substr in
                        if m <? 0 then -1 else m + 1
       end.

(** [strings.Contains(s, substr)] is [Index(s, substr) >= 0]. *)
Definition Contains (s substr : string) : bool := 0 <=? Index s substr.

(** [s[m:]] *)
Fixpoint slice_from (m : nat) (s : string) : string :=
  match m, s with
  | O, _ => s
  | S m', String _ s' => slice_from m' s'
  | S _, EmptyString => EmptyString
  end.

(** [s[:m]] *)
Definition slice_to (m : nat) (s : string) : string := String.substring 0 m s.

(** The loop of [genSplit] for a non-empty separator and [n < 0]:
    [m := Index(s, sep); if m < 0 { break }; a[i] = s[:m]; s = s[m+len(sep):]].
    The loop runs [Count(s, sep)] times and leaves through [break] or the
    counter; every round consumes at least one byte, so [fuel] bounds it. *)
Fixpoint genSplit (fuel : nat) (s sep : string) : list string :=
  match fuel with
  | O => [s]
  | S fuel' =>
      let m := Index s sep in
      if m <? 0 then [s]
      else slice_to (Z.to_nat m) s
           :: genSplit fuel' (slice_from (Z.to_nat m + String.length sep) s) sep
  end.

(** [explode]: one string per byte (the empty-separator case of [Split];
    on ASCII input this is Go's split into UTF-8 sequences). *)
Fixpoint explode (s : string) : list string :=
  match s with
  | EmptyString => []
  | String c s' => String c EmptyString :: explode s'
  end.

(** [strings.Split(s, sep)] *)
Definition Split (s sep : string) : list string :=
  match sep with
  | EmptyString => explode s
  | _ => genSplit (String.length s) s sep
  end.

End strings.

(** ** [net/http]: the one field of a request the throttle reads *)

Record Request := mkRequest { RemoteAddr : string }.

(** [ip4]: the client key of a request. *)
Definition ip4 (r : Request) : string :=
  if negb (strings.Contains (RemoteAddr r) ":") then RemoteAddr r
  else
    let fields := strings.Split (RemoteAddr r) ":" in
    if (Z.of_nat (length fields) <? 2) then RemoteAddr r
    else match fields with
         | f0 :: _ => f0
         | [] => RemoteAddr r
         end.

(** ** Data model *)

(** [time.Duration] and readings of the monotonic clock, in nanoseconds. *)
Abbreviation Duration := Z.
Abbreviation Time := Z.

Definition Millisecond : Duration := 1000000.
Definition Second : Duration := 1000000000.

(** [var ( timeout = 5 * time.Second )] of the HTTP revision. *)
Definition timeout : Duration := 5 * Second.

(** A channel [chan struct{}] made by [make(chan struct{})]: unbuffered, and
    identified by the order of its allocation. *)
Abbreviation chan := nat.

(** [type Throttle struct].  The mutex is [true] while it is locked. *)
Record Throttle := mkThrottle {
  requestRate : Duration;
  tokenChansMutex : bool;
  tokenChans : gmap string nat
}.

(** [func New(requestRate time.Duration) *Throttle] *)
Definition New (requestRate : Duration) : Throttle :=
  {| requestRate := requestRate;
     tokenChansMutex := false;
     tokenChans := ∅ |}.

(** The value of [fmt.Errorf(format, a)] with one [time.Duration] operand. *)
Inductive error := Errorf (format : string) (a : Duration).

(** The two revisions of [Wait]. *)
Inductive revision := HttpRequest | ClientString.

(** The client key of a call: [user := ip4(r)] in the HTTP revision (the
    argument is the request's [RemoteAddr]), the argument itself otherwise. *)
Definition client_key (v : revision) (arg : string) : string :=
  match v with
  | HttpRequest => ip4 (mkRequest arg)
  | ClientString => arg
  end.

(** The error of the [case <-timeoutChan] branch. *)
Definition timeout_error (v : revision) (t : Throttle) : error :=
  match v with
  | HttpRequest => Errorf "one request per %v allowed" timeout
  | ClientString => Errorf "one request per %v allowed" (requestRate t)
  end.

(** A background goroutine started by [go func() { ... }()]: every one of
    them optionally sleeps and then sends one [struct{}{}] on a channel. *)
Inductive goroutine :=
| Sleeping (wake : Time) (c : nat)   (* inside [time.Sleep], until [wake] *)
| Sending (c : nat).                 (* blocked in [c <- struct{}{}] *)

Global Instance goroutine_eq_dec : EqDecision goroutine.
Proof. solve_decision. Defined.

Definition target (g : goroutine) : nat :=
  match g with Sleeping _ c => c | Sending c => c end.

(** Program points of a caller inside [Wait]. *)
Inductive pc :=
| AtLock                                (* [t.tokenChansMutex.Lock()] *)
| AtLookup                              (* [tokenChan, ok := t.tokenChans[client]] *)
| AtCreate                              (* the body of [if !ok] *)
| AtUnlock (tokenChan : nat)            (* [t.tokenChansMutex.Unlock()] *)
| AtTimeout (tokenChan : nat)           (* [timeoutChan := make(...); go func() ...] *)
| AtSelect (tokenChan timeoutChan : nat). (* [select] *)

(** The frame of a call of [Wait] that has not returned yet. *)
Record frame := mkFrame {
  f_arg : string;       (* [r.RemoteAddr], or [client] *)
  f_client : string;    (* the client key *)
  f_start : Time;       (* when [Wait] was called *)
  f_pc : pc
}.

(** A call that has returned. [r_req] is the request handed back by the
    HTTP revision ([nil] is [None]); [r_err] is the error ([nil] is [None]). *)
Record ret := mkRet {
  r_call : nat;
  r_client : string;
  r_start : Time;
  r_end : Time;
  r_req : option Request;
  r_err : option error
}.

(** The whole program: the clock, the one [Throttle], the channel allocator,
    the background goroutines that have not finished, the calls of [Wait] in
    progress (by call number) and the calls that have returned. *)
Record State := mkState {
  now : Time;
  thr : Throttle;
  nextChan : nat;
  goroutines : list goroutine;
  calls : gmap nat frame;
  nextCall : nat;
  returned : list ret
}.

(** The program after [New(requestRate)], at clock reading [t0]. *)
Definition boot (requestRate : Duration) (t0 : Time) : State :=
  {| now := t0; thr := New requestRate; nextChan := 0%nat; goroutines := [];
     calls := ∅; nextCall := 0%nat; returned := [] |}.

(** ** Operations *)

(** Remove one occurrence of a goroutine (it has finished). *)
Fixpoint take (g : goroutine) (gs : list goroutine) : option (list goroutine) :=
  match gs with
  | [] => None
  | h :: t => if decide (h = g) then Some t
              else match take g t with
                   | Some t' => Some (h :: t')
                   | None => None
                   end
  end.

Definition set_pc (f : frame) (p : pc) : frame :=
  {| f_arg := f_arg f; f_client := f_client f; f_start := f_start f; f_pc := p |}.

(** One statement of caller [i] before the [select]. *)
Definition run (i : nat) (s : State) : option State :=
  match calls s !! i with
  | None => None
  | Some f =>
    let t := thr s in
    match f_pc f with
    | AtLock =>
        if tokenChansMutex t then None
        else Some {| now := now s;
                     thr := {| requestRate := requestRate t;
                               tokenChansMutex := true;
                               tokenChans := tokenChans t |};
                     nextChan := nextChan s; goroutines := goroutines s;
                     calls := <[i := set_pc f AtLookup]> (calls s);
                     nextCall := nextCall s; returned := returned s |}
    | AtLookup =>
        let p := match tokenChans t !! f_client f with
                 | Some tokenChan => AtUnlock tokenChan
                 | None => AtCreate
                 end in
        Some {| now := now s; thr := t;
                nextChan := nextChan s; goroutines := goroutines s;
                calls := <[i := set_pc f p]> (calls s);
                nextCall := nextCall s; returned := returned s |}
    | AtCreate =>
        (* tokenChan = make(chan struct{}); go func() { tokenChan <- struct{}{} }();
           t.tokenChans[client] = tokenChan *)
        let tokenChan := nextChan s in
        Some {| now := now s;
                thr := {| requestRate := requestRate t;
                          tokenChansMutex := tokenChansMutex t;
                          tokenChans := <[f_client f := tokenChan]> (tokenChans t) |};
                nextChan := S tokenChan;
                goroutines := Sending tokenChan :: goroutines s;
                calls := <[i := set_pc f (AtUnlock tokenChan)]> (calls s);
                nextCall := nextCall s; returned := returned s |}
    | AtUnlock tokenChan =>
        Some {| now := now s;
                thr := {| requestRate := requestRate t;
                          tokenChansMutex := false;
                          tokenChans := tokenChans t |};
                nextChan := nextChan s; goroutines := goroutines s;
                calls := <[i := set_pc f (AtTimeout tokenChan)]> (calls s);
                nextCall := nextCall s; returned := returned s |}
    | AtTimeout tokenChan =>
        (* timeoutChan := make(chan struct{});
           go func() { time.Sleep(t.requestRate); timeoutChan <- struct{}{} }() *)
        let timeoutChan := nextChan s in
        Some {| now := now s; thr := t;
                nextChan := S timeoutChan;
                goroutines := Sleeping (now s + requestRate t) timeoutChan :: goroutines s;
                calls := <[i := set_pc f (AtSelect tokenChan timeoutChan)]> (calls s);
                nextCall := nextCall s; returned := returned s |}
    | AtSelect _ _ => None
    end
  end.

(** [case <-tokenChan:] the caller receives from a goroutine blocked in its
    send on [tokenChan], starts the producer of the next token and returns. *)
Definition recv_token (v : revision) (i : nat) (s : State) : option State :=
  match calls s !! i with
  | Some f =>
    match f_pc f with
    | AtSelect tokenChan _ =>
      match take (Sending tokenChan) (goroutines s) with
      | Some gs =>
        Some {| now := now s; thr := thr s; nextChan := nextChan s;
                goroutines := Sleeping (now s + requestRate (thr s)) tokenChan :: gs;
                calls := delete i (calls s);
                nextCall := nextCall s;
                returned :=
                  {| r_call := i; r_client := f_client f; r_start := f_start f;
                     r_end := now s;
                     r_req := match v with
                              | HttpRequest => Some (mkRequest (f_arg f))
                              | ClientString => None
                              end;
                     r_err := None |} :: returned s |}
      | None => None
      end
    | _ => None
    end
  | None => None
  end.

(** [case <-timeoutChan:] the caller receives from the timeout goroutine and
    returns the error. *)
Definition recv_timeout (v : revision) (i : nat) (s : State) : option State :=
  match calls s !! i with
  | Some f =>
    match f_pc f with
    | AtSelect _ timeoutChan =>
      match take (Sending timeoutChan) (goroutines s) with
      | Some gs =>
        Some {| now := now s; thr := thr s; nextChan := nextChan s;
                goroutines := gs;
                calls := delete i (calls s);
                nextCall := nextCall s;
                returned :=
                  {| r_call := i; r_client := f_client f; r_start := f_start f;
                     r_end := now s;
                     r_req := None;
                     r_err := Some (timeout_error v (thr s)) |} :: returned s |}
      | None => None
      end
    | _ => None
    end
  | None => None
  end.

(** [time.Sleep] returns in a background goroutine whose time has come. *)
Definition wake_up (w : Time) (c : nat) (s : State) : option State :=
  if w <=? now s then
    match take (Sleeping w c) (goroutines s) with
    | Some gs =>
      Some {| now := now s; thr := thr s; nextChan := nextChan s;
              goroutines := Sending c :: gs;
              calls := calls s; nextCall := nextCall s; returned := returned s |}
    | None => None
    end
  else None.

(** A caller that can execute a statement now. *)
Definition enabled (s : State) (f : frame) : bool :=
  match f_pc f with
  | AtLock => negb (tokenChansMutex (thr s))
  | AtSelect tokenChan timeoutChan =>
      bool_decide (Sending tokenChan ∈ goroutines s)
      || bool_decide (Sending timeoutChan ∈ goroutines s)
  | _ => true
  end.

(** A sleeper whose [time.Sleep] has run out. *)
Definition due (t : Time) (g : goroutine) : bool :=
  match g with
  | Sleeping w _ => w <=? t
  | Sending _ => false
  end.

(** Nothing can run: every caller and every goroutine is blocked. *)
Definition blocked (s : State) : bool :=
  forallb (fun g => negb (due (now s) g)) (goroutines s)
  && forallb (fun kf => negb (enabled s kf.2)) (map_to_list (calls s)).

(** No sleeper is due strictly before [t]. *)
Definition none_before (t : Time) (gs : list goroutine) : bool :=
  forallb (fun g => match g with
                    | Sleeping w _ => t <=? w
                    | Sending _ => true
                    end) gs.

(** The clock advances to [t]. *)
Definition tick (t : Time) (s : State) : option State :=
  if (now s <? t) && blocked s && none_before t (goroutines s) then
    Some {| now := t; thr := thr s; nextChan := nextChan s;
            goroutines := goroutines s; calls := calls s;
            nextCall := nextCall s; returned := returned s |}
  else None.

(** The environment calls [Wait]. *)
Definition call (v : revision) (arg : string) (s : State) : State :=
  {| now := now s; thr := thr s; nextChan := nextChan s;
     goroutines := goroutines s;
     calls := <[nextCall s := {| f_arg := arg; f_client := client_key v arg;
                                 f_start := now s; f_pc := AtLock |}]> (calls s);
     nextCall := S (nextCall s); returned := returned s |}.

(** What can happen next. *)
Inductive label :=
| LCall (arg : string)
| LRun (i : nat)
| LToken (i : nat)
| LTimeout (i : nat)
| LWake (w : Time) (c : nat)
| LTick (t : Time).

Definition step (v : revision) (l : label) (s : State) : option State :=
  match l with
  | LCall arg => Some (call v arg s)
  | LRun i => run i s
  | LToken i => recv_token v i s
  | LTimeout i => recv_timeout v i s
  | LWake w c => wake_up w c s
  | LTick t => tick t s
  end.

Fixpoint exec (v : revision) (ls : list label) (s : State) : option State :=
  match ls with
  | [] => Some s
  | l :: ls' => match step v l s with
                | Some s' => exec v ls' s'
                | None => None
                end
  end.

(** The states the program can be in after [New(requestRate)] at [t0]. *)
Inductive Reachable (v : revision) (d : Duration) (t0 : Time) : State -> Prop :=
| Reachable_boot : Reachable v d t0 (boot d t0)
| Reachable_step s l s' :
    Reachable v d t0 s -> step v l s = Some s' -> Reachable v d t0 s'.

(** The outcomes of the calls that have returned, oldest first:
    call number, time of return, error. *)
Definition outcomes (s : State) : list (nat * Time * option error) :=
  rev (map (fun r => (r_call r, r_end r, r_err r)) (returned s)).

(** The statements of one call up to its [select], for a key seen for the
    first time and for a key seen before. *)
Definition first_call (arg : string) (i : nat) : list label :=
  [LCall arg; LRun i; LRun i; LRun i; LRun i; LRun i].
Definition later_call (arg : string) (i : nat) : list label :=
  [LCall arg; LRun i; LRun i; LRun i; LRun i].


(** ** Invariants of the reachable states *)

(** The goroutines that send, or will send, on channel [c]. *)
Definition on (c : nat) (gs : list goroutine) : list goroutine :=
  filter (fun g => target g = c) gs.

(** Program points between [Lock()] and [Unlock()]. *)
Definition critical (p : pc) : bool :=
  match p with
  | AtLookup | AtCreate | AtUnlock _ => true
  | _ => false
  end.

(** The channel held in the caller's local variable [tokenChan]. *)
Definition slot_of (p : pc) : option nat :=
  match p with
  | AtUnlock c | AtTimeout c | AtSelect c _ => Some c
  | _ => None
  end.

(** The channel held in the caller's local variable [timeoutChan]. *)
Definition timer_of (p : pc) : option nat :=
  match p with
  | AtSelect _ tc => Some tc
  | _ => None
  end.

(** Every channel a caller holds has been allocated. *)
Definition pc_below (n : nat) (p : pc) : Prop :=
  match p with
  | AtUnlock c | AtTimeout c => (c < n)%nat
  | AtSelect c tc => (c < n)%nat /\ (tc < n)%nat
  | _ => True
  end.

(** Allocation: call numbers and channels in use are below the allocators. *)
Record Alloc (s : State) : Prop := {
  alloc_calls : forall i f, calls s !! i = Some f -> (i < nextCall s)%nat;
  alloc_pc : forall i f, calls s !! i = Some f -> pc_below (nextChan s) (f_pc f);
  alloc_map : forall k c, tokenChans (thr s) !! k = Some c -> (c < nextChan s)%nat;
  alloc_go : forall g, g ∈ goroutines s -> (target g < nextChan s)%nat
}.

(** The mutex: it is locked exactly while one caller is between [Lock()]
    and [Unlock()], and never two. *)
Record Mutex (s : State) : Prop := {
  mutex_free : tokenChansMutex (thr s) = false ->
               forall i f, calls s !! i = Some f -> critical (f_pc f) = false;
  mutex_held : tokenChansMutex (thr s) = true ->
               exists i f, calls s !! i = Some f /\ critical (f_pc f) = true;
  mutex_excl : forall i j fi fj,
               calls s !! i = Some fi -> calls s !! j = Some fj ->
               critical (f_pc fi) = true -> critical (f_pc fj) = true -> i = j
}.

(** The slots: a caller's [tokenChan] is the map's channel for its client;
    inside [if !ok] the client has no channel yet; no channel serves two
    clients. *)
Record Slots (s : State) : Prop := {
  slots_agree : forall i f c, calls s !! i = Some f -> slot_of (f_pc f) = Some c ->
                tokenChans (thr s) !! f_client f = Some c;
  slots_absent : forall i f, calls s !! i = Some f -> f_pc f = AtCreate ->
                 tokenChans (thr s) !! f_client f = None;
  slots_inj : forall k1 k2 c, tokenChans (thr s) !! k1 = Some c ->
              tokenChans (thr s) !! k2 = Some c -> k1 = k2
}.

(** The timers: a caller's [timeoutChan] is no client's channel, is its own,
    and its goroutine is asleep until [f_start + requestRate] or sending. *)
Record Timers (s : State) : Prop := {
  timers_private : forall i f tc k, calls s !! i = Some f ->
                   timer_of (f_pc f) = Some tc ->
                   tokenChans (thr s) !! k <> Some tc;
  timers_own : forall i j fi fj tc, calls s !! i = Some fi -> calls s !! j = Some fj ->
               timer_of (f_pc fi) = Some tc -> timer_of (f_pc fj) = Some tc -> i = j;
  timers_go : forall i f tc, calls s !! i = Some f -> timer_of (f_pc f) = Some tc ->
              Sleeping (f_start f + requestRate (thr s)) tc ∈ goroutines s
              \/ Sending tc ∈ goroutines s
}.

(** The clock: a caller before its [select] was called just now; a caller in
    its [select] was called at most [requestRate] ago; a call that returned
    took at most [requestRate]. *)
Record Clock (s : State) : Prop := {
  clock_fresh : forall i f, calls s !! i = Some f -> timer_of (f_pc f) = None ->
                f_start f = now s;
  clock_call : forall i f, calls s !! i = Some f ->
               f_start f <= now s <= f_start f + Z.max (requestRate (thr s)) 0;
  clock_ret : forall r, r ∈ returned s ->
              r_start r <= r_end r <= r_start r + Z.max (requestRate (thr s)) 0
}.

Record Inv (s : State) : Prop := {
  inv_alloc : Alloc s;
  inv_mutex : Mutex s;
  inv_slots : Slots s;
  inv_one : forall c, (length (on c (goroutines s)) <= 1)%nat;
  inv_timers : Timers s;
  inv_clock : Clock s
}.

(** ** Runs *)

(** The program runs from one state to another. *)
Inductive Steps (v : revision) : State -> State -> Prop :=
| Steps_refl s : Steps v s s
| Steps_step s l s1 s2 :
    step v l s = Some s1 -> Steps v s1 s2 -> Steps v s s2.

(** The state a list of steps ends in (the state it starts in, when one of
    them is not possible). *)
Definition after (v : revision) (ls : list label) (s : State) : State :=
  default s (exec v ls s).

(** Some goroutine sends, or will send, on [c]. *)
Definition pending (c : nat) (s : State) : Prop :=
  exists g, g ∈ goroutines s /\ target g = c.

(** Nobody holds [c] any more: it is allocated, it is no client's channel,
    and it is no caller's [tokenChan] or [timeoutChan]. *)
Definition abandoned (c : nat) (s : State) : Prop :=
  (c < nextChan s)%nat
  /\ (forall k, tokenChans (thr s) !! k <> Some c)
  /\ (forall i f, calls s !! i = Some f ->
        slot_of (f_pc f) <> Some c /\ timer_of (f_pc f) <> Some c).

(** ** Scenarios *)

Definition ms (n : Z) : Duration := n * Millisecond.

(** [New(1s)]; client "a" is served at 0 and calls again at 100ms. *)
Definition two_calls : list label :=
  first_call "a" 0 ++ [LToken 0%nat; LTick (ms 100)] ++ later_call "a" 1.

(** First case of the test table: rate 1s, a request every 100ms (the first
    three of them).  The request of 100ms gets the token of 1s; the request
    of 200ms is still in its [select] at 1.2s, when its timeout is ready... *)
Definition too_fast_select (arg : string) : list label :=
  first_call arg 0 ++ [LToken 0%nat; LTick (ms 100)] ++
  later_call arg 1 ++ [LTick (ms 200)] ++
  later_call arg 2 ++
  [LTick (ms 1000); LWake (ms 1000) 0%nat; LWake (ms 1000) 1%nat; LToken 1%nat;
   LTick (ms 1100); LWake (ms 1100) 2%nat;
   LTick (ms 1200); LWake (ms 1200) 3%nat].

(** ... and it runs out of time. *)
Definition too_fast (arg : string) : list label :=
  too_fast_select arg ++ [LTimeout 2%nat].

(** Third case of the test table: rate 1s, five requests 450ms apart. *)
Definition every_450ms : list label :=
  first_call "a" 0 ++ [LToken 0%nat; LTick (ms 450)] ++
  later_call "a" 1 ++ [LTick (ms 900)] ++
  later_call "a" 2 ++
  [LTick (ms 1000); LWake (ms 1000) 0%nat; LWake (ms 1000) 1%nat; LToken 1%nat;
   LTick (ms 1350)] ++
  later_call "a" 3 ++ [LTick (ms 1450); LWake (ms 1450) 2%nat; LTick (ms 1800)] ++
  later_call "a" 4 ++
  [LTick (ms 1900); LWake (ms 1900) 3%nat; LTimeout 2%nat;
   LTick (ms 2000); LWake (ms 2000) 0%nat; LToken 3%nat;
   LTick (ms 2350); LWake (ms 2350) 4%nat;
   LTick (ms 2800); LWake (ms 2800) 5%nat; LTimeout 4%nat].

(** Two callers of one new client at the same instant. *)
Definition two_first_callers : list label :=
  [LCall "a"; LCall "a";
   LRun 0%nat;                                   (* 0: Lock() *)
   LRun 0%nat; LRun 0%nat; LRun 0%nat;           (* 0: lookup, if !ok, Unlock() *)
   LRun 1%nat;                                   (* 1: Lock() *)
   LRun 1%nat; LRun 1%nat;                       (* 1: lookup (found), Unlock() *)
   LRun 0%nat; LRun 1%nat].                      (* both: timeoutChan *)

(** Rate 1s: a request made at 450ms waits for the token of 1s. *)
Definition late_receive : list label :=
  first_call "a" 0 ++ [LToken 0%nat; LTick (ms 450)] ++
  later_call "a" 1 ++ [LTick (ms 1000); LWake (ms 1000) 0%nat].

(** [New(1s)]; client "a" calls at 0 and is in its [select]... *)
Definition first_select : list label := first_call "a" 0.

(** ... and is served. *)
Definition served_once : list label := first_select ++ [LToken 0%nat].

(** ** The test table of [throttle_test.go] *)

(** [type TestCase struct] *)
Record TestCase := mkTestCase {
  AllowedRate : Duration;
  ProgressiveRequestPause : Duration;
  TotalRequests : Z;
  ExpectedRequestsOK : Z;
  ExpectedRequestsFail : Z
}.

(** [var testCases = []TestCase{...}] *)
Definition testCases : list TestCase :=
  [ {| AllowedRate := 1 * Second;
       ProgressiveRequestPause := 100 * Millisecond;
       TotalRequests := 10;
       ExpectedRequestsOK := 2;
       ExpectedRequestsFail := 8 |};
    {| AllowedRate := 10 * Millisecond;
       ProgressiveRequestPause := 100 * Millisecond;
       TotalRequests := 10;
       ExpectedRequestsOK := 10;
       ExpectedRequestsFail := 0 |};
    {| AllowedRate := 1 * Second;
       ProgressiveRequestPause := 450 * Millisecond;
       TotalRequests := 5;
       ExpectedRequestsOK := 3;
       ExpectedRequestsFail := 2 |} ].

(** The condition under which [TestDoubleRequestTooFast] calls [t.Errorf]:
    [ok != testCase.ExpectedRequestsOK && fail != testCase.ExpectedRequestsFail]. *)
Definition reports_error (testCase : TestCase) (ok fail : Z) : bool :=
  negb (ok =? ExpectedRequestsOK testCase)
  && negb (fail =? ExpectedRequestsFail testCase).

(** The request of the test: [http.NewRequest] leaves [RemoteAddr] empty. *)
Definition test_request : Request := mkRequest "".

(** HTTP revision: two requests of one host, from two ports, both in
    their [select]. *)
Definition two_ports : list label :=
  [LCall "10.0.0.1:4000"; LCall "10.0.0.1:4001";
   LRun 0%nat; LRun 0%nat; LRun 0%nat; LRun 0%nat; LRun 0%nat;
   LRun 1%nat; LRun 1%nat; LRun 1%nat; LRun 1%nat].





(** The call that executes a step, if the step is a statement of a call. *)
Definition actor (l : label) : option nat :=
  match l with
  | LRun i | LToken i | LTimeout i => Some i
  | _ => None
  end.

(** Two callers of one client, both in their [select], the token ready. *)
Definition two_waiters : list label := two_first_callers.

(** Two clients, "a" and "b", both in their [select]. *)
Definition two_clients : list label := first_call "a" 0 ++ first_call "b" 1.

(** A caller between [Lock()] and [Unlock()]. *)
Definition inside_lock : list label := [LCall "a"; LRun 0%nat].
Example ip4_v4 : ip4 (mkRequest "192.168.1.7:51234") = "192.168.1.7"%string.
Proof. reflexivity. Qed.

Example ip4_bare : ip4 (mkRequest "localhost") = "localhost"%string.
Proof. reflexivity. Qed.

Example split_three : strings.Split "a:b::c" ":" = ["a"; "b"; ""; "c"]%string.
Proof. reflexivity. Qed.


(** ** Properties of [ip4] *)

Section Ip4.

Lemma Index_nil : strings.Index "" ":" = -1.
Proof. reflexivity. Qed.

Lemma Index_cons (c : ascii) (s : string) :
  strings.Index (String c s) ":" =
  if decide (c = ":"%char) then 0
  else if strings.Index s ":" <? 0 then -1 else strings.Index s ":" + 1.
Proof.
  cbn [strings.Index String.prefix].
  destruct (ascii_dec ":" c) as [<-|Hne].
  - destruct s; rewrite decide_True by done; reflexivity.
  - rewrite decide_False by congruence. reflexivity.
Qed.

Lemma Index_range (s : string) :
  -1 <= strings.Index s ":" < Z.of_nat (String.length s) \/
  (s = ""%string /\ strings.Index s ":" = -1).
Proof.
  induction s as [|c s IH].
  - right. split; reflexivity.
  - left. rewrite Index_cons. cbn [String.length].
    destruct (decide (c = ":"%char)); [lia|].
    destruct (Z.ltb_spec (strings.Index s ":") 0); lia.
Qed.

(** Without a colon there is no index. *)
Lemma Index_absent (s : string) :
  ~ In ":"%char (list_ascii_of_string s) -> strings.Index s ":" = -1.
Proof.
  induction s as [|c s IH]; intros Hno; [reflexivity|].
  rewrite Index_cons. cbn in Hno.
  destruct (decide (c = ":"%char)) as [->|_]; [tauto|].
  rewrite IH by tauto. reflexivity.
Qed.

(** The index of the first colon is the length of what precedes it. *)
Lemma Index_first (pre post : string) :
  ~ In ":"%char (list_ascii_of_string pre) ->
  strings.Index (pre +:+ ":" +:+ post) ":" = Z.of_nat (String.length pre).
Proof.
  induction pre as [|c pre IH]; intros Hno.
  - change ("" +:+ ":" +:+ post)%string with (String ":" post).
    rewrite Index_cons, decide_True by done. reflexivity.
  - change (String c pre +:+ ":" +:+ post)%string
      with (String c (pre +:+ ":" +:+ post)).
    cbn [String.length]. cbn in Hno. rewrite Index_cons.
    destruct (decide (c = ":"%char)) as [->|_]; [tauto|].
    rewrite IH by tauto.
    destruct (Z.ltb_spec (Z.of_nat (String.length pre)) 0); lia.
Qed.

Lemma slice_to_app (pre rest : string) :
  strings.slice_to (String.length pre) (pre +:+ rest) = pre.
Proof.
  unfold strings.slice_to.
  induction pre as [|c pre IH].
  - destruct rest; reflexivity.
  - change (String c pre +:+ rest)%string with (String c (pre +:+ rest)).
    cbn [String.length substring]. f_equal. exact IH.
Qed.

Lemma genSplit_nonempty (fuel : nat) (s sep : string) :
  (1 <= length (strings.genSplit fuel s sep))%nat.
Proof.
  destruct fuel; cbn; [lia|].
  destruct (strings.Index s sep <? 0); cbn; lia.
Qed.

Lemma length_app_string (a b : string) :
  String.length (a +:+ b) = (String.length a + String.length b)%nat.
Proof.
  induction a as [|c a IH]; [reflexivity|].
  change (String c a +:+ b)%string with (String c (a +:+ b)).
  cbn [String.length]. rewrite IH. reflexivity.
Qed.

Lemma ip4_no_colon (addr : string) :
  ~ In ":"%char (list_ascii_of_string addr) -> ip4 (mkRequest addr) = addr.
Proof.
  intros Hno. unfold ip4, strings.Contains. cbn [RemoteAddr].
  rewrite Index_absent by exact Hno. reflexivity.
Qed.

Lemma genSplit_first (fuel : nat) (pre post : string) :
  ~ In ":"%char (list_ascii_of_string pre) ->
  exists rest,
    strings.genSplit (S fuel) (pre +:+ ":" +:+ post) ":" = pre :: rest
    /\ (1 <= length rest)%nat.
Proof.
  intros Hno. cbn [strings.genSplit].
  rewrite Index_first by exact Hno.
  replace (Z.of_nat (String.length pre) <? 0) with false
    by (symmetry; apply Z.ltb_ge; lia).
  rewrite Nat2Z.id, slice_to_app.
  eexists. split; [reflexivity|]. apply genSplit_nonempty.
Qed.

Lemma ip4_first_colon (pre post : string) :
  ~ In ":"%char (list_ascii_of_string pre) ->
  ip4 (mkRequest (pre +:+ ":" +:+ post)) = pre.
Proof.
  intros Hno. unfold ip4, strings.Contains. cbn [RemoteAddr].
  rewrite Index_first by exact Hno.
  replace (0 <=? Z.of_nat (String.length pre)) with true
    by (symmetry; apply Z.leb_le; lia).
  cbn [negb]. unfold strings.Split.
  destruct (String.length (pre +:+ ":" +:+ post)) as [|fuel] eqn:Hlen.
  { rewrite !length_app_string in Hlen. cbn in Hlen. lia. }
  destruct (genSplit_first fuel pre post Hno) as (rest & -> & Hrest).
  cbn [length].
  destruct (Z.ltb_spec (Z.of_nat (S (length rest))) 2); [lia|reflexivity].
Qed.

End Ip4.

(** ** Stepping *)

Ltac frames :=
  repeat match goal with
  | H : <[_ := _]> _ !! _ = Some _ |- _ =>
      apply lookup_insert_Some in H as [[? ?]|[? H]]
  | H : delete _ _ !! _ = Some _ |- _ =>
      apply lookup_delete_Some in H as [? H]
  end; simplify_eq.

(** Case analysis of a step: one case per statement of the program. *)
Ltac step_inv H :=
  lazymatch type of H with
  | step ?v ?l ?s = Some ?s' =>
    destruct l as [arg|i|i|i|w c|t]; cbn [step] in H;
    [ injection H as <-
    | unfold run in H;
      let f := fresh "f" in
      destruct (calls s !! i) as [f|] eqn:Hf; [|discriminate H];
      destruct (f_pc f) as [| | |c|c|c tc] eqn:Hpc;
      [ destruct (tokenChansMutex (thr s)) eqn:Hmu;
        [discriminate H|injection H as <-]
      | injection H as <-
      | injection H as <-
      | injection H as <-
      | injection H as <-
      | discriminate H ]
    | unfold recv_token in H;
      let f := fresh "f" in
      destruct (calls s !! i) as [f|] eqn:Hf; [|discriminate H];
      destruct (f_pc f) as [| | |c|c|c tc] eqn:Hpc; try discriminate H;
      let gs := fresh "gs" in
      destruct (take (Sending c) (goroutines s)) as [gs|] eqn:Htake;
      [|discriminate H]; injection H as <-
    | unfold recv_timeout in H;
      let f := fresh "f" in
      destruct (calls s !! i) as [f|] eqn:Hf; [|discriminate H];
      destruct (f_pc f) as [| | |c|c|c tc] eqn:Hpc; try discriminate H;
      let gs := fresh "gs" in
      destruct (take (Sending tc) (goroutines s)) as [gs|] eqn:Htake;
      [|discriminate H]; injection H as <-
    | unfold wake_up in H;
      destruct (w <=? now s) eqn:Hw; [|discriminate H];
      let gs := fresh "gs" in
      destruct (take (Sleeping w c) (goroutines s)) as [gs|] eqn:Htake;
      [|discriminate H]; injection H as <-
    | unfold tick in H;
      destruct (now s <? t) eqn:Hlt; [|discriminate H];
      destruct (blocked s) eqn:Hblocked; [|discriminate H];
      destruct (none_before t (goroutines s)) eqn:Hnone; [|discriminate H];
      injection H as <- ]
  end.

(** *** Finished goroutines *)

Lemma take_Permutation g gs gs' : take g gs = Some gs' -> gs ≡ₚ g :: gs'.
Proof.
  revert gs'. induction gs as [|h t IH]; intros gs' H; [discriminate|].
  cbn in H. destruct (decide (h = g)) as [->|Hne].
  - injection H as <-. reflexivity.
  - destruct (take g t) as [t'|]; [|discriminate]. injection H as <-.
    rewrite (IH t' eq_refl). apply Permutation_swap.
Qed.

Lemma take_elem_of g gs gs' x :
  take g gs = Some gs' -> x ∈ gs <-> x = g \/ x ∈ gs'.
Proof.
  intros H. rewrite (take_Permutation _ _ _ H), elem_of_cons. reflexivity.
Qed.

Lemma take_incl g gs gs' x : take g gs = Some gs' -> x ∈ gs' -> x ∈ gs.
Proof. intros H Hx. apply (take_elem_of _ _ _ x H). by right. Qed.

Lemma take_here g gs gs' : take g gs = Some gs' -> g ∈ gs.
Proof. intros H. apply (take_elem_of _ _ _ g H). by left. Qed.

Lemma take_is_Some g gs : g ∈ gs -> is_Some (take g gs).
Proof.
  induction gs as [|h t IH]; intros Hin.
  - by apply elem_of_nil in Hin.
  - cbn. destruct (decide (h = g)); [eauto|].
    apply elem_of_cons in Hin as [->|Hin]; [done|].
    destruct (IH Hin) as [t' ->]. eauto.
Qed.

Lemma take_on g gs gs' c :
  take g gs = Some gs' -> length (on c gs) = length (on c (g :: gs')).
Proof.
  intros H. unfold on. by rewrite (take_Permutation _ _ _ H).
Qed.

Lemma on_cons_eq g gs : on (target g) (g :: gs) = g :: on (target g) gs.
Proof. unfold on. by rewrite filter_cons_True. Qed.

Lemma on_cons_same c g gs : target g = c -> on c (g :: gs) = g :: on c gs.
Proof. intros <-. apply on_cons_eq. Qed.

Lemma on_cons_ne c g gs : target g <> c -> on c (g :: gs) = on c gs.
Proof. intros. unfold on. by rewrite filter_cons_False. Qed.

Lemma on_nil_fresh c gs :
  (forall g, g ∈ gs -> (target g < c)%nat) -> on c gs = [].
Proof.
  intros H. unfold on. induction gs as [|g gs IH]; [done|].
  rewrite filter_cons_False.
  - apply IH. intros g' Hg'. apply H. by right.
  - assert (target g < c)%nat by (apply H; by left). lia.
Qed.

(** *** Allocation *)

Lemma pc_below_mono n m p : (n <= m)%nat -> pc_below n p -> pc_below m p.
Proof. destruct p; cbn; lia. Qed.

Lemma step_Alloc v l s s' : Alloc s -> step v l s = Some s' -> Alloc s'.
Proof.
  intros [Hc Hp Hm Hg] H.
  step_inv H;
    try (pose proof (Hp _ _ Hf) as Hpf; rewrite Hpc in Hpf; cbn in Hpf);
    try (pose proof (Hg _ (take_here _ _ _ Htake)) as Hgt; cbn in Hgt);
    constructor; cbn; intros; frames;
    repeat match goal with
    | H : _ ∈ _ :: _ |- _ => apply elem_of_cons in H as [->|H]
    | Ht : take _ ?gs = Some ?gs', H : _ ∈ ?gs' |- _ =>
        apply (take_incl _ _ _ _ Ht) in H
    end;
    cbn;
    try match goal with
    | |- context [tokenChans _ !! ?k] => destruct (tokenChans _ !! k) eqn:?; cbn
    end;
    try solve [eauto using pc_below_mono with lia
              | lia
              | match goal with
                | H : calls s !! _ = Some _ |- _ => apply Hc in H; lia
                | H : tokenChans (thr s) !! _ = Some _ |- _ => apply Hm in H; lia
                | H : _ ∈ goroutines s |- _ => apply Hg in H; cbn in H; lia
                end ].
Qed.

(** *** The mutex *)

Lemma critical_set_pc f p : critical (f_pc (set_pc f p)) = critical p.
Proof. reflexivity. Qed.

Lemma holder_insert_self (m : gmap nat frame) i f :
  critical (f_pc f) = true ->
  exists j fj, <[i := f]> m !! j = Some fj /\ critical (f_pc fj) = true.
Proof. intros. exists i, f. by rewrite lookup_insert_eq. Qed.

Lemma holder_insert_other (m : gmap nat frame) i f :
  (forall fi, m !! i = Some fi -> critical (f_pc fi) = false) ->
  (exists j fj, m !! j = Some fj /\ critical (f_pc fj) = true) ->
  exists j fj, <[i := f]> m !! j = Some fj /\ critical (f_pc fj) = true.
Proof.
  intros Hi (j & fj & Hj & Hc). exists j, fj. split; [|done].
  rewrite lookup_insert_ne; [done|]. intros ->.
  specialize (Hi _ Hj). congruence.
Qed.

Lemma holder_delete (m : gmap nat frame) i :
  (forall fi, m !! i = Some fi -> critical (f_pc fi) = false) ->
  (exists j fj, m !! j = Some fj /\ critical (f_pc fj) = true) ->
  exists j fj, delete i m !! j = Some fj /\ critical (f_pc fj) = true.
Proof.
  intros Hi (j & fj & Hj & Hc). exists j, fj. split; [|done].
  rewrite lookup_delete_ne; [done|]. intros ->.
  specialize (Hi _ Hj). congruence.
Qed.

Lemma critical_lookup (o : option nat) :
  critical match o with Some c => AtUnlock c | None => AtCreate end = true.
Proof. by destruct o. Qed.

Lemma step_Mutex v l s s' :
  Alloc s -> Mutex s -> step v l s = Some s' -> Mutex s'.
Proof.
  intros [Hc _ _ _] [Hfree Hheld Hexcl] H.
  step_inv H;
    try (assert (critical (f_pc f) = true) as Hcrit by (rewrite Hpc; reflexivity));
    try (assert (critical (f_pc f) = false) as Hncrit by (rewrite Hpc; reflexivity));
    try (assert (tokenChansMutex (thr s) = true) as Hmu
           by (destruct (tokenChansMutex (thr s)) eqn:E; [done|];
               specialize (Hfree E _ _ Hf); congruence));
    constructor; cbn; intros; frames; cbn in *;
    rewrite ?critical_lookup in *.
  all: try solve [eauto | congruence
                 | apply holder_insert_self; by rewrite ?critical_lookup
                 | apply holder_insert_other; [intros; simplify_eq; eauto|eauto]
                 | apply holder_delete; [intros; simplify_eq; eauto|eauto] ].
  - apply holder_insert_other; [|eauto].
    intros fi Hfi. apply Hc in Hfi. lia.
  - match goal with
    | Hj : calls s !! _ = Some ?fj, Hcj : critical (f_pc ?fj) = true |- _ =>
        rewrite (Hfree eq_refl _ _ Hj) in Hcj; discriminate
    end.
  - match goal with
    | Hj : calls s !! _ = Some ?fj, Hcj : critical (f_pc ?fj) = true |- _ =>
        rewrite (Hfree eq_refl _ _ Hj) in Hcj; discriminate
    end.
  - apply holder_insert_self. cbn. apply critical_lookup.
  - match goal with
    | Hj : calls s !! ?j = Some ?fj |- critical (f_pc ?fj) = false =>
        destruct (critical (f_pc fj)) eqn:Hcj; [|done];
        pose proof (Hexcl _ _ _ _ Hf Hj Hcrit Hcj); congruence
    end.
Qed.

(** *** The slots *)

Lemma step_Slots v l s s' :
  Alloc s -> Mutex s -> Slots s -> step v l s = Some s' -> Slots s'.
Proof.
  intros [_ _ Hm _] [_ _ Hexcl] [Hagree Habsent Hinj] H.
  step_inv H;
    try (assert (critical (f_pc f) = true) as Hcrit by (rewrite Hpc; reflexivity));
    try (pose proof (Hagree _ _ c Hf) as Hfc; rewrite Hpc in Hfc;
         specialize (Hfc eq_refl));
    try (pose proof (Habsent _ _ Hf Hpc) as Hfa);
    constructor; cbn; intros; frames; cbn in *.
  all: try solve [eauto | congruence].
  - destruct (tokenChans (thr s) !! f_client f); cbn in *; congruence.
  - destruct (tokenChans (thr s) !! f_client f); cbn in *; congruence.
  - rewrite lookup_insert_eq. congruence.
  - match goal with
    | Hj : calls s !! _ = Some ?fj, Hs : slot_of (f_pc ?fj) = Some _ |- _ =>
        pose proof (Hagree _ _ _ Hj Hs) as Hjc
    end.
    rewrite lookup_insert_ne; [done|]. intros E. rewrite E in Hfa. congruence.
  - match goal with
    | Hj : calls s !! _ = Some ?fj, Hs : f_pc ?fj = AtCreate |- _ =>
        assert (critical (f_pc fj) = true) as Hcj by (by rewrite Hs);
        pose proof (Hexcl _ _ _ _ Hf Hj Hcrit Hcj)
    end.
    congruence.
  - match goal with
    | Hk : tokenChans (thr s) !! _ = Some (nextChan s) |- _ =>
        apply Hm in Hk; lia
    end.
  - match goal with
    | Hk : tokenChans (thr s) !! _ = Some (nextChan s) |- _ =>
        apply Hm in Hk; lia
    end.
Qed.

(** *** One producer per channel *)

Lemma on_cons_swap c g g' gs :
  target g = target g' -> length (on c (g :: gs)) = length (on c (g' :: gs)).
Proof.
  intros E. unfold on. rewrite !filter_cons, E.
  by destruct (decide (target g' = c)).
Qed.

Lemma on_cons_le c g gs : (length (on c gs) <= length (on c (g :: gs)))%nat.
Proof.
  unfold on. rewrite filter_cons.
  destruct (decide (target g = c)); cbn; lia.
Qed.

Lemma on_cons_fresh c n g gs :
  target g = n ->
  (forall g', g' ∈ gs -> (target g' < n)%nat) ->
  (length (on c gs) <= 1)%nat ->
  (length (on c (g :: gs)) <= 1)%nat.
Proof.
  intros E Hfresh Hle. destruct (decide (c = n)) as [->|Hne].
  - rewrite <- E at 1. rewrite on_cons_eq, E, on_nil_fresh by done. done.
  - rewrite on_cons_ne by congruence. done.
Qed.

Lemma step_one v l s s' :
  Alloc s -> (forall c, (length (on c (goroutines s)) <= 1)%nat) ->
  step v l s = Some s' ->
  forall c, (length (on c (goroutines s')) <= 1)%nat.
Proof.
  intros [_ _ _ Hg] Hone H c0. specialize (Hone c0).
  step_inv H; cbn [goroutines]; try done.
  - by apply (on_cons_fresh _ (nextChan s)).
  - by apply (on_cons_fresh _ (nextChan s)).
  - rewrite (on_cons_swap _ _ (Sending c)) by done.
    by rewrite <- (take_on _ _ _ _ Htake).
  - pose proof (on_cons_le c0 (Sending tc) gs) as Hle.
    rewrite <- (take_on _ _ _ _ Htake) in Hle. lia.
  - rewrite (on_cons_swap _ _ (Sleeping w c)) by done.
    by rewrite <- (take_on _ _ _ _ Htake).
Qed.

(** *** The timers *)

Lemma step_rate v l s s' :
  step v l s = Some s' -> requestRate (thr s') = requestRate (thr s).
Proof. intros H. step_inv H; reflexivity. Qed.

Lemma timer_of_lookup (o : option nat) :
  timer_of match o with Some c => AtUnlock c | None => AtCreate end = None.
Proof. by destruct o. Qed.

Lemma armed_cons (a b g : goroutine) gs :
  a ∈ gs \/ b ∈ gs -> a ∈ g :: gs \/ b ∈ g :: gs.
Proof. rewrite !elem_of_cons. tauto. Qed.

Lemma armed_take (a b g : goroutine) gs gs' :
  take g gs = Some gs' -> a <> g -> b <> g ->
  a ∈ gs \/ b ∈ gs -> a ∈ gs' \/ b ∈ gs'.
Proof.
  intros Ht Ha Hb. rewrite !(take_elem_of _ _ _ _ Ht). tauto.
Qed.

Lemma step_Timers v l s s' :
  Alloc s -> Slots s -> Clock s -> Timers s ->
  step v l s = Some s' -> Timers s'.
Proof.
  intros [_ Hp Hm Hg] [Hagree _ _] [Hfresh _ _] [Hpriv Hown Hgo] H.
  step_inv H;
    try (pose proof (Hp _ _ Hf) as Hpf; rewrite Hpc in Hpf; cbn in Hpf);
    try (pose proof (Hagree _ _ c Hf) as Hfc; rewrite Hpc in Hfc;
         specialize (Hfc eq_refl));
    try (pose proof (Hfresh _ _ Hf) as Hff; rewrite Hpc in Hff;
         specialize (Hff eq_refl));
    constructor; cbn; intros; frames; cbn in *;
    rewrite ?timer_of_lookup in *; simplify_eq.
  all: try solve [eauto | congruence | apply armed_cons; eauto].
  - (* if !ok: the new channel is no timer *)
    match goal with
    | Hj : calls s !! _ = Some ?fj, Ht : timer_of (f_pc ?fj) = Some ?tc |- _ =>
        pose proof (Hp _ _ Hj) as Hlt; pose proof (Hpriv _ _ _ k Hj Ht) as Hk;
        destruct (f_pc fj); simplify_eq/=
    end.
    rewrite lookup_insert. case_decide; [|done]. intros [= <-]. lia.
  - (* the new timer is no client's channel *)
    intros Hk%Hm. lia.
  - match goal with
    | Hj : calls s !! _ = Some ?fj, Ht : timer_of (f_pc ?fj) = Some _ |- _ =>
        pose proof (Hp _ _ Hj) as Hlt; destruct (f_pc fj); simplify_eq/=; lia
    end.
  - match goal with
    | Hj : calls s !! _ = Some ?fj, Ht : timer_of (f_pc ?fj) = Some _ |- _ =>
        pose proof (Hp _ _ Hj) as Hlt; destruct (f_pc fj); simplify_eq/=; lia
    end.
  - rewrite Hff. left. by left.
  - (* a token is received: no timer goroutine is involved *)
    apply armed_cons.
    match goal with
    | Hj : calls s !! _ = Some ?fj, Ht : timer_of (f_pc ?fj) = Some _ |- _ =>
        pose proof (Hpriv _ _ _ (f_client f) Hj Ht) as Hk;
        eapply armed_take; [exact Htake|done| |by eapply Hgo]
    end.
    intros ?; simplify_eq.
  - (* a timeout is received: it is the receiver's own *)
    match goal with
    | Hj : calls s !! _ = Some ?fj, Ht : timer_of (f_pc ?fj) = Some _ |- _ =>
        eapply armed_take; [exact Htake|done| |by eapply Hgo]
    end.
    intros ?; simplify_eq.
    match goal with
    | Hj : calls s !! ?j = Some ?fj, Ht : timer_of (f_pc ?fj) = Some _,
      Hne : i <> ?j |- _ =>
        apply Hne; eapply (Hown _ _ _ _ _ Hf Hj); [by rewrite Hpc|done]
    end.
  - (* a sleeper wakes up *)
    match goal with
    | Hj : calls s !! _ = Some ?fj, Ht : timer_of (f_pc ?fj) = Some ?tc0 |- _ =>
        destruct (Hgo _ _ _ Hj Ht) as [Hin|Hin];
        apply (take_elem_of _ _ _ _ Htake) in Hin as [E|Hin]; simplify_eq
    end.
    + right. by left.
    + left. by right.
    + right. by right.
Qed.

(** *** The clock *)

Lemma blocked_call s i f :
  blocked s = true -> calls s !! i = Some f -> enabled s f = false.
Proof.
  unfold blocked. intros [_ H]%andb_prop Hf.
  rewrite forallb_forall in H.
  specialize (H (i, f)). cbn in H. apply negb_true_iff, H.
  apply list_elem_of_In. by apply elem_of_map_to_list.
Qed.

Lemma enabled_critical s f : critical (f_pc f) = true -> enabled s f = true.
Proof. unfold enabled. by destruct (f_pc f). Qed.

(** When nothing can run, every caller is inside its [select] and neither
    of its channels has a sender. *)
Lemma blocked_select s i f :
  Mutex s -> blocked s = true -> calls s !! i = Some f ->
  exists c tc, f_pc f = AtSelect c tc
               /\ (Sending c ∉ goroutines s) /\ (Sending tc ∉ goroutines s).
Proof.
  intros [_ Hheld _] Hb Hf.
  pose proof (blocked_call _ _ _ Hb Hf) as Hen. unfold enabled in Hen.
  destruct (f_pc f) as [| | |c|c|c tc]; try discriminate.
  - apply negb_false_iff in Hen.
    destruct (Hheld Hen) as (j & fj & Hj & Hcj).
    pose proof (blocked_call _ _ _ Hb Hj) as Hn.
    rewrite (enabled_critical s _ Hcj) in Hn. discriminate.
  - exists c, tc. apply orb_false_elim in Hen as [H1 H2].
    apply bool_decide_eq_false in H1, H2. done.
Qed.

Lemma none_before_sleeping t gs w c :
  none_before t gs = true -> Sleeping w c ∈ gs -> t <= w.
Proof.
  unfold none_before. rewrite forallb_forall. intros H Hin.
  apply list_elem_of_In, H in Hin. by apply Z.leb_le.
Qed.

Lemma step_Clock v l s s' :
  Mutex s -> Timers s -> Clock s -> step v l s = Some s' -> Clock s'.
Proof.
  intros Hmutex [_ _ Hgo] [Hfresh Hcall Hret] H.
  step_inv H;
    try (pose proof (Hcall _ _ Hf) as Hcf);
    try (pose proof (Hfresh _ _ Hf) as Hff; rewrite Hpc in Hff;
         specialize (Hff eq_refl));
    constructor; cbn; intros; frames; cbn in *;
    rewrite ?timer_of_lookup in *; simplify_eq;
    repeat match goal with
    | H : _ ∈ _ :: _ |- _ => apply elem_of_cons in H as [->|H]; cbn
    end.
  all: try solve [eauto | congruence | lia].
  - (* the clock advances: no caller is before its select *)
    match goal with
    | Hj : calls s !! _ = Some ?fj |- _ =>
        destruct (blocked_select _ _ _ Hmutex Hblocked Hj) as (c & tc & E & _)
    end.
    rewrite E in *. discriminate.
  - (* the clock advances: not beyond a caller's timeout *)
    match goal with
    | Hj : calls s !! _ = Some ?fj |- _ =>
        destruct (blocked_select _ _ _ Hmutex Hblocked Hj)
          as (c & tc & E & _ & Hns);
        pose proof (Hcall _ _ Hj) as Hcj;
        destruct (Hgo _ _ tc Hj) as [Hsl|Hsd]; [by rewrite E| |done]
    end.
    apply (none_before_sleeping _ _ _ _ Hnone) in Hsl.
    apply Z.ltb_lt in Hlt. lia.
Qed.

(** *** The invariant holds in every reachable state *)

Lemma Inv_boot d t0 : Inv (boot d t0).
Proof.
  constructor; [constructor|constructor|constructor|
                |constructor|constructor]; cbn; intros;
    repeat match goal with
    | H : ∅ !! _ = Some _ |- _ => by rewrite lookup_empty in H
    | H : _ ∈ [] |- _ => by apply elem_of_nil in H
    end; try done; lia.
Qed.

Lemma step_Inv v l s s' : Inv s -> step v l s = Some s' -> Inv s'.
Proof.
  intros [Ha Hm Hs Ho Ht Hc] H. constructor.
  - by eapply step_Alloc.
  - by eapply step_Mutex.
  - by eapply step_Slots.
  - by eapply step_one.
  - by eapply step_Timers.
  - by eapply step_Clock.
Qed.

Lemma Reachable_Inv v d t0 s : Reachable v d t0 s -> Inv s.
Proof.
  induction 1 as [|s l s' _ IH Hstep]; [apply Inv_boot|by eapply step_Inv].
Qed.

Lemma Reachable_rate v d t0 s : Reachable v d t0 s -> requestRate (thr s) = d.
Proof.
  induction 1 as [|s l s' _ IH Hstep]; [done|].
  by rewrite (step_rate _ _ _ _ Hstep).
Qed.

Lemma exec_Reachable v d t0 ls s s' :
  Reachable v d t0 s -> exec v ls s = Some s' -> Reachable v d t0 s'.
Proof.
  revert s. induction ls as [|l ls IH]; intros s Hs H; cbn in H.
  - by injection H as <-.
  - destruct (step v l s) as [s1|] eqn:Hstep; [|discriminate].
    eapply IH; [|exact H]. by eapply Reachable_step.
Qed.

(** *** Runs *)

Lemma Reachable_after v d t0 ls s :
  Reachable v d t0 s -> Reachable v d t0 (after v ls s).
Proof.
  intros Hs. unfold after. destruct (exec v ls s) as [s'|] eqn:H; cbn.
  - by eapply exec_Reachable.
  - done.
Qed.

Lemma Steps_Reachable v d t0 s s' :
  Reachable v d t0 s -> Steps v s s' -> Reachable v d t0 s'.
Proof.
  intros Hs H. induction H as [|s l s1 s2 Hstep _ IH]; [done|].
  apply IH. by eapply Reachable_step.
Qed.

(** ** The test table *)

(** Rate 1s, five requests 450ms apart: three are served, two fail. *)
Example test_case_3 :
  option_map outcomes (exec ClientString every_450ms (boot Second 0)) =
  Some [(0%nat, ms 0, None);
        (1%nat, ms 1000, None);
        (2%nat, ms 1900, Some (Errorf "one request per %v allowed" Second));
        (3%nat, ms 2000, None);
        (4%nat, ms 2800, Some (Errorf "one request per %v allowed" Second))].
Proof. vm_compute. reflexivity. Qed.

(** ** Construction *)

Lemma untouched v d t0 s :
  Reachable v d t0 s -> nextCall s = 0%nat ->
  goroutines s = [] /\ thr s = New d /\ calls s = ∅.
Proof.
  induction 1 as [|s l s' Hs IH Hstep]; [done|].
  intros Hn.
  assert (nextCall s = 0%nat) as Hn0 by (step_inv Hstep; cbn in Hn; done).
  destruct (IH Hn0) as (Hg & Ht & Hc).
  step_inv Hstep; cbn in *;
    try (rewrite Hc, lookup_empty in Hf; discriminate);
    try (rewrite Hg in Htake; discriminate); done.
Qed.

(** C9: [New(interval)] returns a Throttle with an empty client map and the
    given interval; no goroutine exists after it, and as long as [Wait] has
    not been called none is started: the first goroutine is started by a
    statement of a call of [Wait]. *)
Theorem New_starts_nothing (v : revision) (d : Duration) (t0 : Time) :
  tokenChans (New d) = ∅ /\ requestRate (New d) = d
  /\ tokenChansMutex (New d) = false
  /\ thr (boot d t0) = New d /\ goroutines (boot d t0) = []
  /\ (forall s, Reachable v d t0 s -> nextCall s = 0%nat ->
        goroutines s = [] /\ thr s = New d)
  /\ (forall s l s', Reachable v d t0 s -> step v l s = Some s' ->
        goroutines s = [] -> goroutines s' <> [] ->
        exists i f, l = LRun i /\ calls s !! i = Some f).
Proof.
  repeat split; try reflexivity.
  - by eapply untouched.
  - by eapply untouched.
  - intros s l s' _ Hstep Hg Hg'.
    step_inv Hstep; cbn in Hg'; try congruence; try (by eauto);
      rewrite Hg in Htake; discriminate.
Qed.

Lemma New_starts_nothing_witness :
  goroutines (after ClientString [LTick (ms 5)] (boot Second 0)) = []
  /\ thr (after ClientString [LTick (ms 5)] (boot Second 0)) = New Second.
Proof.
  apply (New_starts_nothing ClientString Second 0).
  - apply Reachable_after, Reachable_boot.
  - reflexivity.
Defined.

(** ** The client key *)

(** C10: [ip4] returns [RemoteAddr] unchanged when it holds no colon, and
    otherwise what stands before its first colon, so that "[::1]:8080" gives
    "["; the HTTP revision of [Wait] uses the result, and nothing else, as
    the client key of the call. *)
Theorem ip4_cuts_at_first_colon (addr : string) :
  (~ In ":"%char (list_ascii_of_string addr) -> ip4 (mkRequest addr) = addr)
  /\ (forall pre post, addr = (pre +:+ ":" +:+ post)%string ->
        ~ In ":"%char (list_ascii_of_string pre) -> ip4 (mkRequest addr) = pre)
  /\ ip4 (mkRequest "[::1]:8080") = "["%string
  /\ client_key HttpRequest addr = ip4 (mkRequest addr)
  /\ (forall s, calls (call HttpRequest addr s) !! nextCall s =
        Some {| f_arg := addr; f_client := ip4 (mkRequest addr);
                f_start := now s; f_pc := AtLock |}).
Proof.
  split; [apply ip4_no_colon|].
  split; [intros pre post ->; apply ip4_first_colon|].
  split; [reflexivity|]. split; [reflexivity|].
  intros s. cbn. apply lookup_insert_eq.
Qed.

Lemma ip4_cuts_at_first_colon_witness :
  ip4 (mkRequest "localhost") = "localhost"%string
  /\ ip4 (mkRequest "192.168.1.7:51234") = "192.168.1.7"%string.
Proof.
  split.
  - apply (proj1 (ip4_cuts_at_first_colon "localhost")).
    cbn. intros H. repeat destruct H as [H|H]; discriminate || done.
  - apply (proj1 (proj2 (ip4_cuts_at_first_colon "192.168.1.7:51234")))
      with (post := "51234"%string).
    + reflexivity.
    + cbn. intros H. repeat destruct H as [H|H]; discriminate || done.
Defined.

(** ** Tokens *)

Lemma take_on_other g gs gs' c :
  take g gs = Some gs' -> target g <> c -> on c gs' = on c gs.
Proof.
  revert gs'. induction gs as [|h t IH]; intros gs' H Hne; [discriminate|].
  cbn in H. destruct (decide (h = g)) as [->|Hhg].
  - injection H as <-. by rewrite on_cons_ne.
  - destruct (take g t) as [t'|] eqn:Ht; [|discriminate]. injection H as <-.
    unfold on in *. rewrite !filter_cons, (IH t' eq_refl Hne). done.
Qed.

Lemma ready_le_on c gs :
  (length (filter (fun g => g = Sending c) gs) <= length (on c gs))%nat.
Proof.
  unfold on. induction gs as [|g gs IH]; [done|].
  rewrite !filter_cons.
  destruct (decide (g = Sending c)) as [->|Hne]; cbn.
  - rewrite decide_True by done. cbn. lia.
  - destruct (decide (target g = c)); cbn; lia.
Qed.

(** C4: a client's channel never has more than one producer, asleep or
    sending: a step adds a producer to a channel only when the channel has
    none, so no second token is scheduled before the first is consumed, and
    at most one send is ready for an idle client. *)
Theorem one_token_in_flight (v : revision) (d : Duration) (t0 : Time) (s : State) :
  Reachable v d t0 s ->
  (forall k c, tokenChans (thr s) !! k = Some c ->
     (length (on c (goroutines s)) <= 1)%nat)
  /\ (forall k c, tokenChans (thr s) !! k = Some c ->
        (length (filter (fun g => g = Sending c) (goroutines s)) <= 1)%nat)
  /\ (forall l s' c, step v l s = Some s' ->
        (length (on c (goroutines s)) < length (on c (goroutines s')))%nat ->
        on c (goroutines s) = []).
Proof.
  intros Hs. pose proof (Reachable_Inv _ _ _ _ Hs) as HI.
  split; [|split].
  - intros k c _. apply (inv_one _ HI).
  - intros k c _. pose proof (inv_one _ HI c) as Hle.
    pose proof (ready_le_on c (goroutines s)). lia.
  - intros l s' c Hstep Hlt.
    pose proof (inv_one _ (step_Inv _ _ _ _ HI Hstep) c) as Hle.
    apply length_zero_iff_nil. lia.
Qed.

Lemma one_token_in_flight_witness :
  (length (on 0%nat (goroutines (after ClientString two_calls (boot Second 0))))
   <= 1)%nat.
Proof.
  apply (proj1 (one_token_in_flight ClientString Second 0 _
                  (Reachable_after _ _ _ two_calls _ (Reachable_boot _ _ _)))
           "a"%string 0%nat).
  vm_compute. reflexivity.
Defined.

(** ** The slots *)

Lemma step_binding v l s s' k ch :
  Inv s -> step v l s = Some s' ->
  tokenChans (thr s) !! k = Some ch -> tokenChans (thr s') !! k = Some ch.
Proof.
  intros HI H Hk. pose proof (slots_absent _ (inv_slots _ HI)) as Habsent.
  step_inv H; cbn; try done.
  rewrite lookup_insert_ne; [done|]. intros E.
  pose proof (Habsent _ _ Hf Hpc) as Hnone. congruence.
Qed.

(** C6: the mutex admits one caller between [Lock()] and [Unlock()]; every
    caller past the lookup holds the one channel the map has for its client,
    so two callers of one client share their slot; a binding, once made, is
    never replaced; and the channel of a client has at most one producer,
    so its first token is produced once. *)
Theorem slot_created_once (v : revision) (d : Duration) (t0 : Time) (s : State) :
  Reachable v d t0 s ->
  (forall i j fi fj, calls s !! i = Some fi -> calls s !! j = Some fj ->
     critical (f_pc fi) = true -> critical (f_pc fj) = true -> i = j)
  /\ (forall i j fi fj ci cj, calls s !! i = Some fi -> calls s !! j = Some fj ->
        f_client fi = f_client fj ->
        slot_of (f_pc fi) = Some ci -> slot_of (f_pc fj) = Some cj ->
        ci = cj /\ tokenChans (thr s) !! f_client fi = Some ci)
  /\ (forall i f, calls s !! i = Some f -> f_pc f = AtCreate ->
        tokenChans (thr s) !! f_client f = None)
  /\ (forall l s' k c, step v l s = Some s' ->
        tokenChans (thr s) !! k = Some c -> tokenChans (thr s') !! k = Some c)
  /\ (forall k c, tokenChans (thr s) !! k = Some c ->
        (length (on c (goroutines s)) <= 1)%nat).
Proof.
  intros Hs. pose proof (Reachable_Inv _ _ _ _ Hs) as HI.
  destruct (inv_slots _ HI) as [Hagree Habsent _].
  split; [apply (mutex_excl _ (inv_mutex _ HI))|].
  split.
  { intros i j fi fj ci cj Hi Hj Hkey Hci Hcj.
    pose proof (Hagree _ _ _ Hi Hci) as E1.
    pose proof (Hagree _ _ _ Hj Hcj) as E2.
    split; [congruence|done]. }
  split; [exact Habsent|].
  split.
  { intros l s' k c Hstep Hk. by eapply step_binding. }
  intros k c _. apply (inv_one _ HI).
Qed.

Lemma slot_created_once_witness :
  tokenChans (thr (after ClientString (two_calls ++ [LTick (ms 1000)])
                     (boot Second 0))) !! "a"%string = Some 0%nat.
Proof.
  apply (proj1 (proj2 (proj2 (proj2
           (slot_created_once ClientString Second 0
              (after ClientString two_calls (boot Second 0))
              (Reachable_after _ _ _ two_calls _ (Reachable_boot _ _ _))))))
           (LTick (ms 1000))).
  - vm_compute. reflexivity.
  - vm_compute. reflexivity.
Defined.

(** Two callers of one new client: the second cannot lock the mutex while
    the first is inside, and then finds the first one's channel; there is
    one channel and one first token. *)
Example second_caller_waits_for_mutex :
  exec ClientString [LCall "a"; LCall "a"; LRun 0%nat; LRun 1%nat]
    (boot Second 0) = None.
Proof. vm_compute. reflexivity. Qed.

Example two_first_callers_one_slot :
  option_map (fun s => (map_to_list (tokenChans (thr s)), goroutines s,
                        f_pc <$> calls s !! 0%nat, f_pc <$> calls s !! 1%nat))
    (exec ClientString two_first_callers (boot Second 0)) =
  Some ([("a"%string, 0%nat)],
        [Sleeping Second 2; Sleeping Second 1; Sending 0],
        Some (AtSelect 0 1), Some (AtSelect 0 2)).
Proof. vm_compute. reflexivity. Qed.

(** ** The timeout branch *)

(** The statements of a call other than the body of [if !ok] leave the
    map and the producers of every client's channel as they are. *)
Lemma run_keeps_tokens s s1 n f :
  Alloc s -> calls s !! n = Some f -> f_pc f <> AtCreate -> run n s = Some s1 ->
  tokenChans (thr s1) = tokenChans (thr s)
  /\ (forall k ch, tokenChans (thr s) !! k = Some ch ->
        on ch (goroutines s1) = on ch (goroutines s)).
Proof.
  intros [_ _ Hm _] Hf Hpc H. unfold run in H. rewrite Hf in H.
  destruct (f_pc f) as [| | |c|c|c tc]; try done.
  - destruct (tokenChansMutex (thr s)); [discriminate|]. by injection H as <-.
  - by injection H as <-.
  - by injection H as <-.
  - injection H as <-. cbn [thr goroutines]. split; [done|]. intros k ch Hk.
    apply on_cons_ne. cbn. apply Hm in Hk. lia.
Qed.

(** C7: a call that fails has received from its timeout channel only: the
    throttle's map is unchanged and every client's channel has the very
    producers it had, so a token that is ready stays ready for a later
    caller; the same holds for every statement the call ran before, the
    body of [if !ok] apart, which a call runs for a client without slot. *)
Theorem timeout_consumes_no_token
  (v : revision) (d : Duration) (t0 : Time) (s s' : State) (n : nat) :
  Reachable v d t0 s ->
  recv_timeout v n s = Some s' ->
  thr s' = thr s
  /\ (forall k c, tokenChans (thr s) !! k = Some c ->
        on c (goroutines s') = on c (goroutines s))
  /\ (forall k c, tokenChans (thr s) !! k = Some c ->
        Sending c ∈ goroutines s -> Sending c ∈ goroutines s')
  /\ (exists r, returned s' = r :: returned s /\ r_call r = n
                /\ r_err r = Some (timeout_error v (thr s)))
  /\ (forall m f s1, calls s !! m = Some f -> f_pc f <> AtCreate ->
        run m s = Some s1 ->
        tokenChans (thr s1) = tokenChans (thr s)
        /\ (forall k c, tokenChans (thr s) !! k = Some c ->
              on c (goroutines s1) = on c (goroutines s))).
Proof.
  intros Hs H. pose proof (Reachable_Inv _ _ _ _ Hs) as HI.
  unfold recv_timeout in H.
  destruct (calls s !! n) as [f|] eqn:Hf; [|discriminate].
  destruct (f_pc f) as [| | | | |c tc] eqn:Hpc; try discriminate.
  destruct (take (Sending tc) (goroutines s)) as [gs|] eqn:Htake; [|discriminate].
  injection H as <-. cbn.
  assert (forall k c', tokenChans (thr s) !! k = Some c' -> c' <> tc) as Hne.
  { intros k c' Hk ->.
    apply (timers_private _ (inv_timers _ HI) n f tc k Hf); [by rewrite Hpc|done]. }
  split; [done|]. split; [|split; [|split]].
  - intros k c' Hk. apply (take_on_other _ _ _ _ Htake). cbn.
    intros E. by apply (Hne _ _ Hk).
  - intros k c' Hk Hin. apply (take_elem_of _ _ _ _ Htake) in Hin as [E|Hin]; [|done].
    injection E as ->. by destruct (Hne _ _ Hk).
  - eexists. split; [reflexivity|]. done.
  - intros m fm s1 Hm Hpcm Hrun.
    by eapply run_keeps_tokens; [apply (inv_alloc _ HI)|..].
Qed.

Lemma timeout_consumes_no_token_witness :
  thr (after ClientString (too_fast "a") (boot Second 0))
  = thr (after ClientString (too_fast_select "a") (boot Second 0)).
Proof.
  refine (proj1 (timeout_consumes_no_token ClientString Second 0
           (after ClientString (too_fast_select "a") (boot Second 0))
           (after ClientString (too_fast "a") (boot Second 0)) 2%nat _ _)).
  - apply Reachable_after, Reachable_boot.
  - vm_compute. reflexivity.
Defined.

(** ** The token branch *)

(** C5: when a call receives the token, the channel's one producer is the
    goroutine started by that call, asleep until one interval after the
    clock reading at the moment of the receive (the time the call returns),
    whenever the call had started. *)
Theorem next_token_one_interval_after_receive
  (v : revision) (d : Duration) (t0 : Time) (s s' : State) (n : nat) :
  Reachable v d t0 s ->
  recv_token v n s = Some s' ->
  exists f c tc,
    calls s !! n = Some f /\ f_pc f = AtSelect c tc
    /\ tokenChans (thr s) !! f_client f = Some c
    /\ Sending c ∈ goroutines s
    /\ on c (goroutines s') = [Sleeping (now s + d) c]
    /\ (exists r, returned s' = r :: returned s /\ r_call r = n
          /\ r_start r = f_start f /\ r_end r = now s /\ r_err r = None).
Proof.
  intros Hs H. pose proof (Reachable_Inv _ _ _ _ Hs) as HI.
  pose proof (Reachable_rate _ _ _ _ Hs) as Hd.
  unfold recv_token in H.
  destruct (calls s !! n) as [f|] eqn:Hf; [|discriminate].
  destruct (f_pc f) as [| | | | |c tc] eqn:Hpc; try discriminate.
  destruct (take (Sending c) (goroutines s)) as [gs|] eqn:Htake; [|discriminate].
  injection H as <-. cbn [goroutines returned]. exists f, c, tc.
  split; [done|]. split; [done|]. split.
  { apply (slots_agree _ (inv_slots _ HI) n f c Hf). by rewrite Hpc. }
  split; [by eapply take_here|]. split.
  - pose proof (inv_one _ HI c) as Hle.
    rewrite (take_on _ _ _ c Htake), on_cons_same in Hle by done.
    rewrite on_cons_same, Hd by done.
    destruct (on c gs); [done|cbn in Hle; lia].
  - eexists. split; [reflexivity|]. done.
Qed.

Lemma next_token_one_interval_after_receive_witness :
  exists f c tc,
    calls (after ClientString late_receive (boot Second 0)) !! 1%nat = Some f
    /\ f_pc f = AtSelect c tc
    /\ tokenChans (thr (after ClientString late_receive (boot Second 0)))
         !! f_client f = Some c
    /\ Sending c ∈ goroutines (after ClientString late_receive (boot Second 0))
    /\ on c (goroutines (after ClientString (late_receive ++ [LToken 1%nat])
                           (boot Second 0)))
       = [Sleeping (now (after ClientString late_receive (boot Second 0)) + Second) c]
    /\ (exists r,
          returned (after ClientString (late_receive ++ [LToken 1%nat]) (boot Second 0))
          = r :: returned (after ClientString late_receive (boot Second 0))
          /\ r_call r = 1%nat
          /\ r_start r = f_start f
          /\ r_end r = now (after ClientString late_receive (boot Second 0))
          /\ r_err r = None).
Proof.
  apply (next_token_one_interval_after_receive ClientString Second 0
           (after ClientString late_receive (boot Second 0))
           (after ClientString (late_receive ++ [LToken 1%nat]) (boot Second 0))
           1%nat).
  - apply Reachable_after, Reachable_boot.
  - vm_compute. reflexivity.
Defined.

(** The call of 450ms returns at 1s, and the next token is due at 2s: one
    interval after the receive, not after the call. *)
Example cadence_counts_from_receive :
  let s := after ClientString (late_receive ++ [LToken 1%nat]) (boot Second 0) in
  (r_start <$> head (returned s), r_end <$> head (returned s),
   on 0%nat (goroutines s))
  = (Some (ms 450), Some (ms 1000), [Sleeping (ms 2000) 0]).
Proof. vm_compute. reflexivity. Qed.

(** ** The bound on a call *)


(** A caller between [Lock()] and its [select] can run. *)
Lemma run_is_Some s i f :
  calls s !! i = Some f -> timer_of (f_pc f) = None -> enabled s f = true ->
  is_Some (run i s).
Proof.
  intros Hf Hpc Hen. unfold run, enabled in *. rewrite Hf.
  destruct (f_pc f); try done.
  apply negb_true_iff in Hen. by rewrite Hen.
Qed.





(** ** The first call of a client *)

Lemma no_call_mutex_free s : Mutex s -> calls s = ∅ -> tokenChansMutex (thr s) = false.
Proof.
  intros [_ Hheld _] Hc. destruct (tokenChansMutex (thr s)); [|done].
  destruct (Hheld eq_refl) as (i & f & Hf & _).
  rewrite Hc, lookup_empty in Hf. discriminate.
Qed.




(** ** The goroutine that loses the race *)

(** Nobody gets hold of an abandoned channel again. *)
Lemma step_abandoned v l s s' ch :
  abandoned ch s -> step v l s = Some s' -> abandoned ch s'.
Proof.
  intros (Hbelow & Hmap & Hcalls) H.
  step_inv H;
    try (destruct (Hcalls _ _ Hf) as [Hslot Htimer]; rewrite Hpc in Hslot, Htimer;
         cbn in Hslot, Htimer).
  all: split; [cbn; lia|]; split; cbn.
  all: try exact Hmap.
  all: try (intros j fj Hj; frames; cbn; eauto).
  all: try solve [split; congruence].
  - destruct (tokenChans (thr s) !! f_client f) as [c1|] eqn:Hc1; cbn.
    + split; [|done]. intros E. by apply (Hmap (f_client f)); rewrite Hc1.
    + done.
  - intros k Hk. apply lookup_insert_Some in Hk as [[_ Hk]|[_ Hk]].
    + lia.
    + by apply (Hmap k).
  - split; [|done]. intros [= E]. lia.
  - split; [done|]. intros [= E]. lia.
Qed.

(** A goroutine on a channel nobody holds stays where it is: no step
    receives from the channel. *)
Lemma step_pending v l s s' ch :
  abandoned ch s -> pending ch s -> step v l s = Some s' -> pending ch s'.
Proof.
  intros (_ & _ & Hcalls) (g & Hg & Hgc) H. unfold pending.
  step_inv H;
    try (destruct (Hcalls _ _ Hf) as [Hslot Htimer]; rewrite Hpc in Hslot, Htimer;
         cbn in Hslot, Htimer);
    cbn [goroutines].
  all: try solve [exists g; rewrite ?elem_of_cons; auto].
  - apply (take_elem_of _ _ _ _ Htake) in Hg as [->|Hg]; [cbn in Hgc; congruence|].
    exists g. rewrite elem_of_cons. auto.
  - apply (take_elem_of _ _ _ _ Htake) in Hg as [->|Hg]; [cbn in Hgc; congruence|].
    by exists g.
  - apply (take_elem_of _ _ _ _ Htake) in Hg as [->|Hg].
    + exists (Sending c). rewrite elem_of_cons. auto.
    + exists g. rewrite elem_of_cons. auto.
Qed.

Lemma Steps_abandoned v s s' ch :
  abandoned ch s -> pending ch s -> Steps v s s' ->
  abandoned ch s' /\ pending ch s'.
Proof.
  intros Ha Hp H. induction H as [|s l s1 s2 Hstep _ IH]; [done|].
  apply IH; [by eapply step_abandoned|by eapply step_pending].
Qed.

(** After the token branch the caller's timeout channel is abandoned, with
    its goroutine on it. *)
Lemma recv_token_abandons v s s' n f c tc :
  Inv s -> calls s !! n = Some f -> f_pc f = AtSelect c tc ->
  recv_token v n s = Some s' ->
  abandoned tc s' /\ pending tc s'.
Proof.
  intros HI Hf Hpc H.
  destruct (inv_timers _ HI) as [Hpriv Hown Hgo].
  pose proof (slots_agree _ (inv_slots _ HI)) as Hagree.
  pose proof (alloc_pc _ (inv_alloc _ HI) _ _ Hf) as Hbelow.
  rewrite Hpc in Hbelow. cbn in Hbelow.
  assert (timer_of (f_pc f) = Some tc) as Htc by (by rewrite Hpc).
  assert (c <> tc) as Hne.
  { intros ->. apply (Hpriv _ _ _ (f_client f) Hf Htc).
    apply (Hagree _ _ _ Hf). by rewrite Hpc. }
  unfold recv_token in H. rewrite Hf, Hpc in H.
  destruct (take (Sending c) (goroutines s)) as [gs|] eqn:Htake; [|discriminate].
  injection H as <-. split.
  - split; [cbn; lia|]. split; cbn.
    + intros k. by eapply Hpriv.
    + intros j fj [Hji Hj]%lookup_delete_Some. split.
      * intros Hs. apply (Hpriv _ _ _ (f_client fj) Hf Htc).
        by apply (Hagree _ _ _ Hj).
      * intros Ht. apply Hji. by eapply Hown.
  - unfold pending. cbn.
    destruct (Hgo _ _ _ Hf Htc) as [Hin|Hin];
      apply (take_elem_of _ _ _ _ Htake) in Hin as [E|Hin]; try congruence;
      eexists; (split; [apply elem_of_cons; right; exact Hin|done]).
Qed.

Lemma pending_on c gs g : g ∈ gs -> target g = c -> (1 <= length (on c gs))%nat.
Proof.
  intros Hg Hc. assert (g ∈ on c gs) as Hin by (by apply list_elem_of_filter).
  destruct (on c gs); [by apply elem_of_nil in Hin|cbn; lia].
Qed.

(** After the timeout branch the caller's timeout goroutine has finished. *)
Lemma recv_timeout_finishes v s s' n f c tc :
  Inv s -> calls s !! n = Some f -> f_pc f = AtSelect c tc ->
  recv_timeout v n s = Some s' -> ~ pending tc s'.
Proof.
  intros HI Hf Hpc H (g & Hg & Hgc).
  unfold recv_timeout in H. rewrite Hf, Hpc in H.
  destruct (take (Sending tc) (goroutines s)) as [gs|] eqn:Htake; [|discriminate].
  injection H as <-. cbn in Hg.
  pose proof (inv_one _ HI tc) as Hle.
  rewrite (take_on _ _ _ tc Htake), on_cons_same in Hle by done.
  pose proof (pending_on _ _ _ Hg Hgc). cbn in Hle. lia.
Qed.

(** C8, as the code has it: the timeout goroutine of a call finishes when
    the call takes the timeout branch.  When the call takes the token
    branch, nobody holds its timeout channel from then on (no caller will
    receive from it, it is in nobody's map), and the goroutine stays on the
    channel for the rest of the run: asleep, then blocked in its send. *)
Theorem losing_timeout_never_received
  (v : revision) (d : Duration) (t0 : Time) (s : State)
  (n : nat) (f : frame) (c tc : nat) :
  Reachable v d t0 s ->
  calls s !! n = Some f ->
  f_pc f = AtSelect c tc ->
  (forall s', recv_timeout v n s = Some s' -> ~ pending tc s')
  /\ (forall s' s'', recv_token v n s = Some s' -> Steps v s' s'' ->
        abandoned tc s'' /\ pending tc s'').
Proof.
  intros Hs Hf Hpc. pose proof (Reachable_Inv _ _ _ _ Hs) as HI. split.
  - intros s' H. by eapply recv_timeout_finishes.
  - intros s' s'' H Hsteps.
    destruct (recv_token_abandons _ _ _ _ _ _ _ HI Hf Hpc H) as [Ha Hp].
    by eapply Steps_abandoned.
Qed.

Lemma losing_timeout_never_received_witness :
  abandoned 1%nat (after ClientString served_once (boot Second 0))
  /\ pending 1%nat (after ClientString served_once (boot Second 0)).
Proof.
  apply (proj2 (losing_timeout_never_received ClientString Second 0
                  (after ClientString first_select (boot Second 0)) 0%nat
                  {| f_arg := "a"; f_client := "a"; f_start := 0;
                     f_pc := AtSelect 0 1 |} 0%nat 1%nat
                  (Reachable_after _ _ _ first_select _ (Reachable_boot _ _ _))
                  eq_refl eq_refl)
           (after ClientString served_once (boot Second 0))).
  - vm_compute. reflexivity.
  - apply Steps_refl.
Defined.

(** C8, as stated, fails: after [New(1s)] and one call that is served at
    once, the call's timeout goroutine (on channel 1) is there in every
    state the program can reach: it never finishes. *)
Lemma timeout_goroutine_never_finishes :
  outcomes (after ClientString served_once (boot Second 0)) = [(0%nat, 0, None)]
  /\ goroutines (after ClientString served_once (boot Second 0))
     = [Sleeping Second 0; Sleeping Second 1]
  /\ ~ (exists s', Steps ClientString
                     (after ClientString served_once (boot Second 0)) s'
                   /\ ~ pending 1%nat s').
Proof.
  split; [vm_compute; reflexivity|]. split; [vm_compute; reflexivity|].
  intros (s' & Hsteps & Hgone). apply Hgone.
  assert (Inv (after ClientString first_select (boot Second 0))) as HI.
  { eapply Reachable_Inv, Reachable_after, Reachable_boot. }
  assert (recv_token ClientString 0 (after ClientString first_select (boot Second 0))
          = Some (after ClientString served_once (boot Second 0))) as Hrecv
    by (vm_compute; reflexivity).
  destruct (recv_token_abandons _ _ _ 0%nat
              {| f_arg := "a"; f_client := "a"; f_start := 0; f_pc := AtSelect 0 1 |}
              0%nat 1%nat HI eq_refl eq_refl Hrecv) as [Ha Hp].
  by destruct (Steps_abandoned _ _ _ _ Ha Hp Hsteps).
Qed.

(** ** The error *)

(** Every error a call returns is the error of the timeout branch. *)
Lemma errors_are_timeouts v d t0 s r e :
  Reachable v d t0 s -> r ∈ returned s -> r_err r = Some e ->
  e = timeout_error v (New d).
Proof.
  intros Hs. revert r e. induction Hs as [|s l s' Hs IH Hstep]; intros r e Hr He.
  - by apply elem_of_nil in Hr.
  - pose proof (Reachable_rate _ _ _ _ Hs) as Hrate.
    step_inv Hstep; cbn in Hr; try (by eapply IH);
      apply elem_of_cons in Hr as [->|Hr]; try (by eapply IH); cbn in He.
    injection He as <-. unfold timeout_error. destruct v; [done|].
    by rewrite Hrate.
Qed.

(** The client-string revision reports the configured interval. *)
Lemma client_string_error_carries_rate d t0 s r e :
  Reachable ClientString d t0 s -> r ∈ returned s -> r_err r = Some e ->
  e = Errorf "one request per %v allowed" d.
Proof. intros Hs Hr He. by rewrite (errors_are_timeouts _ _ _ _ _ _ Hs Hr He). Qed.

(** C1 fails in the HTTP revision: with [New(1s)] and requests of one client
    at 0, 100ms and 200ms, the third call takes the timeout branch at 1.2s
    and its error carries the package-level [timeout] of 5s, not the
    configured interval of 1s. *)
Theorem http_error_carries_package_timeout :
  option_map outcomes
    (exec HttpRequest (too_fast "10.0.0.1:4000") (boot Second 0))
  = Some [(0%nat, ms 0, None);
          (1%nat, ms 1000, None);
          (2%nat, ms 1200,
           Some (Errorf "one request per %v allowed" (5 * Second)))]
  /\ timeout_error HttpRequest (New Second)
     <> Errorf "one request per %v allowed" (requestRate (New Second)).
Proof. split; [vm_compute; reflexivity|discriminate]. Qed.

(** * Further properties *)

(** ** More on [ip4] *)

(** A string has no colon, or a first one. *)
Lemma first_colon (s : string) :
  ~ In ":"%char (list_ascii_of_string s)
  \/ exists pre post, s = (pre +:+ ":" +:+ post)%string
                      /\ ~ In ":"%char (list_ascii_of_string pre).
Proof.
  induction s as [|a s IH].
  - left. cbn. tauto.
  - destruct (decide (a = ":"%char)) as [->|Hne].
    + right. exists ""%string, s. split; [reflexivity|]. cbn. tauto.
    + destruct IH as [Hno|(pre & post & -> & Hno)].
      * left. cbn. intros [E|Hin]; [congruence|tauto].
      * right. exists (String a pre), post. split; [reflexivity|].
        cbn. intros [E|Hin]; [congruence|tauto].
Qed.

Lemma Contains_colon (s : string) :
  strings.Contains s ":" = true <-> In ":"%char (list_ascii_of_string s).
Proof.
  unfold strings.Contains.
  destruct (first_colon s) as [Hno|(pre & post & -> & Hno)].
  - rewrite (Index_absent _ Hno). split; [discriminate|tauto].
  - rewrite (Index_first _ _ Hno). split.
    + intros _. clear Hno. induction pre as [|a pre IH].
      * change ("" +:+ ":" +:+ post)%string with (String ":" post).
        by left.
      * change (String a pre +:+ ":" +:+ post)%string
          with (String a (pre +:+ ":" +:+ post)).
        right. exact IH.
    + intros _. apply Z.leb_le. lia.
Qed.

Lemma Split_no_colon (s : string) :
  ~ In ":"%char (list_ascii_of_string s) -> strings.Split s ":" = [s].
Proof.
  intros Hno. unfold strings.Split.
  destruct (String.length s); cbn [strings.genSplit]; [done|].
  by rewrite (Index_absent _ Hno).
Qed.

(** X1: the key [ip4] returns holds no colon, so [ip4] applied to its own
    result changes nothing. *)
Theorem ip4_key_has_no_colon (r : Request) :
  ~ In ":"%char (list_ascii_of_string (ip4 r))
  /\ ip4 (mkRequest (ip4 r)) = ip4 r.
Proof.
  assert (~ In ":"%char (list_ascii_of_string (ip4 r))) as Hno.
  { destruct r as [addr].
    destruct (first_colon addr) as [Hno|(pre & post & -> & Hno)].
    - by rewrite (ip4_no_colon _ Hno).
    - by rewrite (ip4_first_colon _ _ Hno). }
  split; [exact Hno|]. by apply ip4_no_colon.
Qed.

(** X2: the second guard of [ip4], [len(fields) < 2], holds exactly when the
    first one does (no colon in [RemoteAddr]): it never decides the result,
    and with a colon [ip4] is the first field of [strings.Split]. *)
Theorem ip4_second_guard_is_dead (r : Request) :
  (Z.of_nat (length (strings.Split (RemoteAddr r) ":")) <? 2)
  = negb (strings.Contains (RemoteAddr r) ":")
  /\ ip4 r = (if strings.Contains (RemoteAddr r) ":"
              then default (RemoteAddr r) (head (strings.Split (RemoteAddr r) ":"))
              else RemoteAddr r).
Proof.
  destruct r as [addr]. cbn [RemoteAddr].
  destruct (first_colon addr) as [Hno|(pre & post & -> & Hno)].
  - assert (strings.Contains addr ":" = false) as ->.
    { destruct (strings.Contains addr ":") eqn:E; [|done].
      by apply Contains_colon in E. }
    rewrite (Split_no_colon _ Hno), (ip4_no_colon _ Hno). done.
  - assert (strings.Contains (pre +:+ ":" +:+ post) ":" = true) as HC.
    { unfold strings.Contains. rewrite (Index_first _ _ Hno).
      apply Z.leb_le. lia. }
    rewrite HC, (ip4_first_colon _ _ Hno). unfold strings.Split.
    destruct (String.length (pre +:+ ":" +:+ post)) as [|fuel] eqn:Hlen.
    { rewrite !length_app_string in Hlen. cbn in Hlen. lia. }
    destruct (genSplit_first fuel pre post Hno) as (rest & -> & Hrest).
    cbn. split; [|done]. apply Z.ltb_ge. lia.
Qed.

(** ** What a call returns *)

(** A frame keeps the argument of its call and the key derived from it. *)
Lemma frames_key v d t0 s n f :
  Reachable v d t0 s -> calls s !! n = Some f ->
  f_client f = client_key v (f_arg f).
Proof.
  intros Hs. revert n f.
  induction Hs as [|s l s' Hs IH Hstep]; intros n f0 Hn.
  - cbn in Hn. by rewrite lookup_empty in Hn.
  - step_inv Hstep; cbn in Hn; frames; cbn; eauto.
Qed.

(** X3: in the HTTP revision two callers whose [RemoteAddr] is the same host
    with different ports have the same client key, and past the lookup they
    hold the same token channel. *)
Theorem same_host_same_slot
  (d : Duration) (t0 : Time) (s : State) (i j : nat) (fi fj : frame)
  (host p1 p2 : string) (ci cj : nat) :
  Reachable HttpRequest d t0 s ->
  ~ In ":"%char (list_ascii_of_string host) ->
  calls s !! i = Some fi -> f_arg fi = (host +:+ ":" +:+ p1)%string ->
  calls s !! j = Some fj -> f_arg fj = (host +:+ ":" +:+ p2)%string ->
  slot_of (f_pc fi) = Some ci -> slot_of (f_pc fj) = Some cj ->
  f_client fi = host /\ f_client fj = host /\ ci = cj.
Proof.
  intros Hs Hhost Hi Hai Hj Haj Hci Hcj.
  pose proof (frames_key _ _ _ _ _ _ Hs Hi) as Hki.
  pose proof (frames_key _ _ _ _ _ _ Hs Hj) as Hkj.
  rewrite Hai in Hki. rewrite Haj in Hkj. cbn in Hki, Hkj.
  rewrite (ip4_first_colon _ _ Hhost) in Hki.
  rewrite (ip4_first_colon _ _ Hhost) in Hkj.
  split; [done|]. split; [done|].
  pose proof (slots_agree _ (inv_slots _ (Reachable_Inv _ _ _ _ Hs))) as Hagree.
  pose proof (Hagree _ _ _ Hi Hci) as E1.
  pose proof (Hagree _ _ _ Hj Hcj) as E2.
  congruence.
Qed.


(** X5: a call returns an error through the timeout branch only, and the
    error is [fmt.Errorf("one request per %v allowed", a)] where [a] is
    [t.requestRate] in the client-string revision and the package's
    [timeout] in the HTTP revision. *)
Theorem error_is_the_timeout_error
  (v : revision) (d : Duration) (t0 : Time) (s : State) (r : ret) (e : error) :
  Reachable v d t0 s ->
  r ∈ returned s ->
  r_err r = Some e ->
  e = Errorf "one request per %v allowed"
        match v with HttpRequest => 5 * Second | ClientString => d end.
Proof.
  intros Hs Hr He. rewrite (errors_are_timeouts _ _ _ _ _ _ Hs Hr He).
  by destruct v.
Qed.

Lemma same_host_same_slot_witness :
  f_client {| f_arg := "10.0.0.1:4000"; f_client := "10.0.0.1"; f_start := 0;
              f_pc := AtSelect 0 1 |} = "10.0.0.1"%string
  /\ f_client {| f_arg := "10.0.0.1:4001"; f_client := "10.0.0.1"; f_start := 0;
                 f_pc := AtSelect 0 2 |} = "10.0.0.1"%string
  /\ 0%nat = 0%nat.
Proof.
  apply (same_host_same_slot Second 0
           (after HttpRequest two_ports (boot Second 0)) 0%nat 1%nat
           {| f_arg := "10.0.0.1:4000"; f_client := "10.0.0.1"; f_start := 0;
              f_pc := AtSelect 0 1 |}
           {| f_arg := "10.0.0.1:4001"; f_client := "10.0.0.1"; f_start := 0;
              f_pc := AtSelect 0 2 |}
           "10.0.0.1" "4000" "4001" 0%nat 0%nat).
  - apply Reachable_after, Reachable_boot.
  - cbn. intros H. repeat destruct H as [H|H]; discriminate || done.
  - vm_compute. reflexivity.
  - reflexivity.
  - vm_compute. reflexivity.
  - reflexivity.
  - reflexivity.
  - reflexivity.
Defined.


Lemma error_is_the_timeout_error_witness :
  Forall (fun r => forall e, r_err r = Some e ->
                   e = Errorf "one request per %v allowed" Second)
    (returned (after ClientString (too_fast "a") (boot Second 0))).
Proof.
  apply Forall_forall. intros r Hr e He.
  apply (error_is_the_timeout_error ClientString Second 0
           (after ClientString (too_fast "a") (boot Second 0)) r e).
  - apply Reachable_after, Reachable_boot.
  - exact Hr.
  - exact He.
Defined.

(** ** The token of a client *)

(** X6: a client that has a channel has exactly one producer on it at any
    time, asleep or blocked in its send: the token is never lost and never
    doubled. *)
Theorem token_never_lost
  (v : revision) (d : Duration) (t0 : Time) (s : State) (k : string) (ch : nat) :
  Reachable v d t0 s ->
  tokenChans (thr s) !! k = Some ch ->
  length (on ch (goroutines s)) = 1%nat.
Proof.
  intros Hs. revert k ch.
  induction Hs as [|s l s' Hs IH Hstep]; intros k ch Hk.
  - cbn in Hk. by rewrite lookup_empty in Hk.
  - pose proof (Reachable_Inv _ _ _ _ Hs) as HI.
    pose proof (alloc_map _ (inv_alloc _ HI)) as Hmap.
    pose proof (alloc_go _ (inv_alloc _ HI)) as Hgo.
    step_inv Hstep; cbn [thr tokenChans goroutines] in *; try (by eapply IH).
    + (* if !ok *)
      apply lookup_insert_Some in Hk as [[_ <-]|[_ Hk]].
      * by rewrite on_cons_same, on_nil_fresh.
      * rewrite on_cons_ne; [by eapply IH|]. cbn. apply Hmap in Hk. lia.
    + (* the timeout goroutine *)
      rewrite on_cons_ne; [by eapply IH|]. cbn. apply Hmap in Hk. lia.
    + (* the token branch *)
      rewrite (on_cons_swap _ _ (Sending c)) by done.
      rewrite <- (take_on _ _ _ _ Htake). by eapply IH.
    + (* the timeout branch *)
      rewrite (take_on_other _ _ _ _ Htake); [by eapply IH|]. cbn. intros ->.
      apply (timers_private _ (inv_timers _ HI) i f ch k Hf); [by rewrite Hpc|done].
    + (* a sleeper wakes up *)
      rewrite (on_cons_swap _ _ (Sleeping w c)) by done.
      rewrite <- (take_on _ _ _ _ Htake). by eapply IH.
Qed.

Lemma token_never_lost_witness :
  length (on 0%nat (goroutines (after ClientString (too_fast "a") (boot Second 0))))
  = 1%nat.
Proof.
  apply (token_never_lost ClientString Second 0
           (after ClientString (too_fast "a") (boot Second 0)) "a" 0%nat).
  - apply Reachable_after, Reachable_boot.
  - vm_compute. reflexivity.
Defined.



(** ** A call made too early *)








(** ** Clients do not interfere *)

(** X9: no statement of a call touches another client: the other client's
    channel stays in the map with the producers it had, and the frames of
    all other calls are unchanged. *)
Theorem other_clients_untouched
  (v : revision) (d : Duration) (t0 : Time) (s s' : State) (l : label)
  (n : nat) (fr : frame) (k : string) (ch : nat) :
  Reachable v d t0 s ->
  step v l s = Some s' ->
  actor l = Some n ->
  calls s !! n = Some fr ->
  k <> f_client fr ->
  tokenChans (thr s) !! k = Some ch ->
  tokenChans (thr s') !! k = Some ch
  /\ on ch (goroutines s') = on ch (goroutines s)
  /\ (forall j, j <> n -> calls s' !! j = calls s !! j).
Proof.
  intros Hs H Hact Hfr Hk Hch. pose proof (Reachable_Inv _ _ _ _ Hs) as HI.
  pose proof (alloc_map _ (inv_alloc _ HI) _ _ Hch) as Hbelow.
  destruct (inv_slots _ HI) as [Hagree _ Hinj].
  step_inv H; cbn in Hact; try discriminate; injection Hact as ->;
    rewrite Hfr in Hf; injection Hf as <-;
    cbn [thr tokenChans goroutines calls].
  - split; [done|]. split; [done|]. intros j Hj. by rewrite lookup_insert_ne.
  - split; [done|]. split; [done|]. intros j Hj. by rewrite lookup_insert_ne.
  - split; [by rewrite lookup_insert_ne|]. split.
    + apply on_cons_ne. cbn. lia.
    + intros j Hj. by rewrite lookup_insert_ne.
  - split; [done|]. split; [done|]. intros j Hj. by rewrite lookup_insert_ne.
  - split; [done|]. split.
    + apply on_cons_ne. cbn. lia.
    + intros j Hj. by rewrite lookup_insert_ne.
  - assert (c <> ch) as Hne.
    { intros ->. apply Hk, (Hinj _ _ ch); [done|].
      apply (Hagree _ _ _ Hfr). by rewrite Hpc. }
    split; [done|]. split.
    + rewrite on_cons_ne by done. by apply (take_on_other _ _ _ _ Htake).
    + intros j Hj. by rewrite lookup_delete_ne.
  - assert (tc <> ch) as Hne.
    { intros ->.
      apply (timers_private _ (inv_timers _ HI) n fr ch k Hfr); [by rewrite Hpc|done]. }
    split; [done|]. split.
    + by apply (take_on_other _ _ _ _ Htake).
    + intros j Hj. by rewrite lookup_delete_ne.
Qed.

(** ** The mutex *)

(** X10: the mutex is never held across a wait: whenever the clock can
    advance it is unlocked, and while it is locked the caller that holds it
    can run its next statement. *)
Theorem mutex_not_held_across_wait
  (v : revision) (d : Duration) (t0 : Time) (s : State) :
  Reachable v d t0 s ->
  (forall t s', tick t s = Some s' -> tokenChansMutex (thr s) = false)
  /\ (tokenChansMutex (thr s) = true ->
      exists i f, calls s !! i = Some f /\ critical (f_pc f) = true
                  /\ is_Some (run i s)).
Proof.
  intros Hs. pose proof (inv_mutex _ (Reachable_Inv _ _ _ _ Hs)) as HM.
  assert (tokenChansMutex (thr s) = true ->
          exists i f, calls s !! i = Some f /\ critical (f_pc f) = true
                      /\ is_Some (run i s)) as Hheld.
  { intros Hmu. destruct (mutex_held _ HM Hmu) as (i & f & Hf & Hc).
    exists i, f. split; [done|]. split; [done|].
    eapply run_is_Some; [done| |by apply enabled_critical].
    by destruct (f_pc f). }
  split; [|done].
  intros t s' Htick. unfold tick in Htick.
  destruct (blocked s) eqn:Hb; [|by rewrite andb_false_r in Htick].
  destruct (tokenChansMutex (thr s)) eqn:Hmu; [|done].
  destruct (mutex_held _ HM Hmu) as (i & f & Hf & Hc).
  pose proof (blocked_call _ _ _ Hb Hf) as Hen.
  by rewrite (enabled_critical _ _ Hc) in Hen.
Qed.

(** ** Two callers, one token *)

(** X11: when two callers of one client are in their [select] and the token
    is ready, either of them can receive it (the code does not decide
    which), and once one has, the other cannot. *)
Theorem either_waiter_may_win
  (v : revision) (d : Duration) (t0 : Time) (s : State)
  (i j : nat) (fi fj : frame) (ch tci tcj : nat) :
  Reachable v d t0 s ->
  i <> j ->
  calls s !! i = Some fi -> f_pc fi = AtSelect ch tci ->
  calls s !! j = Some fj -> f_pc fj = AtSelect ch tcj ->
  Sending ch ∈ goroutines s ->
  exists si sj,
    recv_token v i s = Some si /\ recv_token v j s = Some sj
    /\ recv_token v j si = None /\ recv_token v i sj = None.
Proof.
  intros Hs Hij Hi Hpi Hj Hpj Hsend.
  pose proof (inv_one _ (Reachable_Inv _ _ _ _ Hs) ch) as Hone.
  destruct (take_is_Some _ _ Hsend) as [gs Hgs].
  assert (take (Sending ch) gs = None) as Hnone.
  { destruct (take (Sending ch) gs) as [gs'|] eqn:E; [|done].
    rewrite (take_on _ _ _ ch Hgs), on_cons_same in Hone by done.
    pose proof (pending_on ch gs (Sending ch) (take_here _ _ _ E) eq_refl).
    cbn in Hone. lia. }
  unfold recv_token. rewrite Hi, Hj, Hpi, Hpj, Hgs.
  eexists. eexists. split; [reflexivity|]. split; [reflexivity|].
  cbn [calls goroutines take].
  rewrite lookup_delete_ne by done.
  rewrite (lookup_delete_ne (calls s) j i) by done.
  rewrite Hi, Hj, Hpi, Hpj, Hnone.
  rewrite decide_False by done. done.
Qed.

Lemma other_clients_untouched_witness :
  tokenChans (thr (after ClientString (two_clients ++ [LToken 0%nat])
                     (boot Second 0))) !! "b"%string = Some 2%nat
  /\ on 2%nat (goroutines (after ClientString (two_clients ++ [LToken 0%nat])
                             (boot Second 0)))
     = on 2%nat (goroutines (after ClientString two_clients (boot Second 0)))
  /\ (forall j, j <> 0%nat ->
        calls (after ClientString (two_clients ++ [LToken 0%nat]) (boot Second 0))
          !! j
        = calls (after ClientString two_clients (boot Second 0)) !! j).
Proof.
  apply (other_clients_untouched ClientString Second 0
           (after ClientString two_clients (boot Second 0))
           (after ClientString (two_clients ++ [LToken 0%nat]) (boot Second 0))
           (LToken 0%nat) 0%nat
           {| f_arg := "a"; f_client := "a"; f_start := 0; f_pc := AtSelect 0 1 |}
           "b" 2%nat).
  - apply Reachable_after, Reachable_boot.
  - vm_compute. reflexivity.
  - reflexivity.
  - vm_compute. reflexivity.
  - discriminate.
  - vm_compute. reflexivity.
Defined.

Lemma mutex_not_held_across_wait_witness :
  exists i f,
    calls (after ClientString inside_lock (boot Second 0)) !! i = Some f
    /\ critical (f_pc f) = true
    /\ is_Some (run i (after ClientString inside_lock (boot Second 0))).
Proof.
  apply (proj2 (mutex_not_held_across_wait ClientString Second 0
                  (after ClientString inside_lock (boot Second 0))
                  (Reachable_after _ _ _ inside_lock _ (Reachable_boot _ _ _)))).
  vm_compute. reflexivity.
Defined.

Lemma either_waiter_may_win_witness :
  exists si sj,
    recv_token ClientString 0 (after ClientString two_waiters (boot Second 0))
    = Some si
    /\ recv_token ClientString 1 (after ClientString two_waiters (boot Second 0))
       = Some sj
    /\ recv_token ClientString 1 si = None
    /\ recv_token ClientString 0 sj = None.
Proof.
  apply (either_waiter_may_win ClientString Second 0
           (after ClientString two_waiters (boot Second 0)) 0%nat 1%nat
           {| f_arg := "a"; f_client := "a"; f_start := 0; f_pc := AtSelect 0 1 |}
           {| f_arg := "a"; f_client := "a"; f_start := 0; f_pc := AtSelect 0 2 |}
           0%nat 1%nat 2%nat).
  - apply Reachable_after, Reachable_boot.
  - discriminate.
  - vm_compute. reflexivity.
  - reflexivity.
  - vm_compute. reflexivity.
  - reflexivity.
  - assert (goroutines (after ClientString two_waiters (boot Second 0))
            = [Sleeping Second 2; Sleeping Second 1; Sending 0]) as ->
      by (vm_compute; reflexivity).
    rewrite !elem_of_cons. auto.
Defined.

(** ** A failing call waits the whole interval *)





(** ** An interval that is not positive *)




(** X13: with an interval of zero or less even the first call of a client
    can fail: its timeout goroutine does not sleep, so the timeout branch
    can be taken at the time of the call, while the first token stays
    ready for the next caller. *)
Theorem nonpositive_rate_first_call_may_fail
  (v : revision) (d : Duration) (t0 : Time) (s : State) (arg : string) :
  d <= 0 ->
  Reachable v d t0 s ->
  calls s = ∅ ->
  tokenChans (thr s) !! client_key v arg = None ->
  exists s2 r,
    exec v (first_call arg (nextCall s)
            ++ [LWake (now s + d) (S (nextChan s)); LTimeout (nextCall s)]) s
    = Some s2
    /\ returned s2 = r :: returned s
    /\ r_call r = nextCall s /\ r_start r = now s /\ r_end r = now s
    /\ r_err r = Some (timeout_error v (New d))
    /\ Sending (nextChan s) ∈ goroutines s2.
Proof.
  intros Hd Hs Hcalls Hkey. pose proof (Reachable_Inv _ _ _ _ Hs) as HI.
  pose proof (Reachable_rate _ _ _ _ Hs) as Hrate.
  pose proof (no_call_mutex_free _ (inv_mutex _ HI) Hcalls) as Hmu.
  unfold first_call. cbn [app].
  eexists. eexists. split.
  { cbn [exec step]. unfold call, run. cbn.
    rewrite lookup_insert_eq. cbn. rewrite Hmu. cbn.
    rewrite lookup_insert_eq. cbn. rewrite Hkey. cbn.
    rewrite lookup_insert_eq. cbn.
    rewrite lookup_insert_eq. cbn.
    rewrite lookup_insert_eq. cbn.
    unfold wake_up. cbn [now goroutines take]. rewrite Hrate.
    rewrite (proj2 (Z.leb_le (now s + d) (now s))) by lia.
    rewrite decide_True by done.
    unfold recv_timeout. cbn [calls goroutines take].
    rewrite lookup_insert_eq. cbn [f_pc set_pc].
    rewrite decide_True by done. reflexivity. }
  cbn. split; [done|]. split; [done|]. split; [done|]. split; [done|].
  split; [f_equal; by destruct v|].
  rewrite elem_of_cons. by left.
Qed.

Lemma nonpositive_rate_first_call_may_fail_witness :
  exists s2 r,
    exec ClientString (first_call "a" 0 ++ [LWake (ms 7 + 0) 1%nat; LTimeout 0%nat])
      (boot 0 (ms 7)) = Some s2
    /\ returned s2 = [r]
    /\ r_call r = 0%nat /\ r_start r = ms 7 /\ r_end r = ms 7
    /\ r_err r = Some (timeout_error ClientString (New 0))
    /\ Sending 0 ∈ goroutines s2.
Proof.
  apply (nonpositive_rate_first_call_may_fail ClientString 0 (ms 7)
           (boot 0 (ms 7)) "a").
  - lia.
  - apply Reachable_boot.
  - reflexivity.
  - reflexivity.
Defined.

(** ** The test *)

(** X15: in every row of the test table the expected counts add up to the
    number of requests; so, the counted requests adding up to that number
    too, the test's condition [ok != expected && fail != expected] reports
    an error exactly when the count of served requests is not the expected
    one. *)
Theorem test_reports_a_wrong_count (testCase : TestCase) (ok fail : Z) :
  testCase ∈ testCases ->
  ok + fail = TotalRequests testCase ->
  ExpectedRequestsOK testCase + ExpectedRequestsFail testCase
  = TotalRequests testCase
  /\ (reports_error testCase ok fail = true
      <-> ok <> ExpectedRequestsOK testCase).
Proof.
  intros Hin Hsum.
  assert (ExpectedRequestsOK testCase + ExpectedRequestsFail testCase
          = TotalRequests testCase) as Hexp.
  { unfold testCases in Hin.
    repeat (apply elem_of_cons in Hin as [->|Hin]; [reflexivity|]).
    by apply elem_of_nil in Hin. }
  split; [exact Hexp|]. unfold reports_error.
  rewrite andb_true_iff, !negb_true_iff, !Z.eqb_neq. split; [tauto|].
  intros Hne. split; [done|lia].
Qed.

Lemma test_reports_a_wrong_count_witness :
  ExpectedRequestsOK {| AllowedRate := 1 * Second;
                        ProgressiveRequestPause := 450 * Millisecond;
                        TotalRequests := 5; ExpectedRequestsOK := 3;
                        ExpectedRequestsFail := 2 |}
  + ExpectedRequestsFail {| AllowedRate := 1 * Second;
                            ProgressiveRequestPause := 450 * Millisecond;
                            TotalRequests := 5; ExpectedRequestsOK := 3;
                            ExpectedRequestsFail := 2 |}
  = TotalRequests {| AllowedRate := 1 * Second;
                     ProgressiveRequestPause := 450 * Millisecond;
                     TotalRequests := 5; ExpectedRequestsOK := 3;
                     ExpectedRequestsFail := 2 |}
  /\ (reports_error {| AllowedRate := 1 * Second;
                       ProgressiveRequestPause := 450 * Millisecond;
                       TotalRequests := 5; ExpectedRequestsOK := 3;
                       ExpectedRequestsFail := 2 |} 4 1 = true
      <-> 4 <> ExpectedRequestsOK {| AllowedRate := 1 * Second;
                                     ProgressiveRequestPause := 450 * Millisecond;
                                     TotalRequests := 5; ExpectedRequestsOK := 3;
                                     ExpectedRequestsFail := 2 |}).
Proof.
  apply (test_reports_a_wrong_count
           {| AllowedRate := 1 * Second;
              ProgressiveRequestPause := 450 * Millisecond;
              TotalRequests := 5; ExpectedRequestsOK := 3;
              ExpectedRequestsFail := 2 |} 4 1).
  - unfold testCases. rewrite !elem_of_cons. auto.
  - reflexivity.
Defined.
